(** * SynchronousExecutor (prefect/engine/executors/sync.py)

    A shallow embedding of the synchronous executor and of the part of the
    dask API it is written against: lazy [Delayed] calls, one-partition
    bags, [dask.compute], and the scoped [dask.config.set]. *)

From Stdlib Require Import ZArith.
From stdpp Require Import base option list strings gmap.

Local Open Scope Z_scope.
Local Open Scope string_scope.
Local Open Scope list_scope.

(** ** Exceptions *)

(** A Python exception: its class name, its message and its [__cause__]. *)
#[warnings="-register-all"]
Inductive exn : Type :=
| Exn (cls : string) (msg : string) (cause : option exn).

Definition exn_class (e : exn) : string := let 'Exn c _ _ := e in c.
Definition exn_cause (e : exn) : option exn := let 'Exn _ _ c := e in c.

Definition AssertionError : exn := Exn "AssertionError" "" None.
Definition ValueError (msg : string) : exn := Exn "ValueError" msg None.
Definition TypeError (msg : string) : exn := Exn "TypeError" msg None.
Definition IndexError (msg : string) : exn := Exn "IndexError" msg None.

Inductive result (A : Type) : Type :=
| Ok (a : A)
| Err (e : exn).
Arguments Ok {A} a.
Arguments Err {A} e.

(** ** Values *)

(** Modelled from the spec: [Edge] (defined in prefect.core.edge, which
    this module only uses).  An Edge is an immutable value key that carries
    the flag [mapped]; [edge_name] stands for whatever else identifies it. *)
Record Edge : Type := mkEdge { edge_name : string; mapped : bool }.

#[global] Instance Edge_eq_dec : EqDecision Edge.
Proof. solve_decision. Defined.

(** The callables that are handed to dask: the two helpers that [map]
    imports from prefect.utilities.executors, and the caller's functions,
    referred to by name. *)
Inductive func : Type :=
| Fstate_to_list
| Funpack_dict_to_bag
| Fuser (name : string).

(** Python values.  A [VDelayed f args kwargs] is the object that
    [dask.delayed(f)] returns when called on [args] and [kwargs];
    [VBagFromDelayed v] is the one-partition bag
    [dask.bag.from_delayed(dask.delayed(state_to_list)(v))];
    [VBagMap f args kwargs] is the bag that [dask.bag.map] builds from [f],
    [args] and [kwargs].  Every node stands for an
    object of its own: a value is a tree, without sharing. *)
#[warnings="-register-all"]
Inductive value : Type :=
| VNone
| VInt (z : Z)
| VStr (s : string)
| VEdge (e : Edge)
| VList (xs : list value)
| VTuple (xs : list value)
| VDict (kvs : list (value * value))
| VDelayed (f : func) (args : list value) (kwargs : list (string * value))
| VBagFromDelayed (v : value)
| VBagMap (f : func) (args : list value) (kwargs : list (string * value)).

Definition kwargs_t : Type := list (string * value).

(** [isinstance(v, dask.bag.Bag)] *)
Definition is_bag (v : value) : bool :=
  match v with
  | VBagFromDelayed _ | VBagMap _ _ _ => true
  | _ => false
  end.

(** [isinstance(v, Delayed)] *)
Definition is_delayed (v : value) : bool :=
  match v with
  | VDelayed _ _ _ => true
  | _ => false
  end.

(** No pending wrapper (Delayed or bag) anywhere inside the builtin
    collections of a value. *)
Fixpoint resolved (v : value) : bool :=
  match v with
  | VNone | VInt _ | VStr _ | VEdge _ => true
  | VList xs | VTuple xs => forallb resolved xs
  | VDict kvs => forallb (fun kv => resolved (fst kv) && resolved (snd kv)) kvs
  | VDelayed _ _ _ | VBagFromDelayed _ | VBagMap _ _ _ => false
  end.


(** The elements of a builtin sequence, as [iter] yields them. *)
Definition seq_items (v : value) : option (list value) :=
  match v with
  | VList xs | VTuple xs => Some xs
  | VDict kvs => Some (List.map fst kvs)
  | _ => None
  end.

(** ** The helpers of prefect.utilities.executors *)

(** Modelled from the spec: [state_to_list] (defined in
    prefect.utilities.executors, which this module only imports).  A list
    is kept as it is, in its order; a single item is wrapped as a
    one-element sequence. *)
Definition state_to_list (s : value) : list value :=
  match s with
  | VList xs => xs
  | _ => [s]
  end.

(** Modelled from the spec: [unpack_dict_to_bag] (defined in
    prefect.utilities.executors, which this module only imports).  It packs
    the values it receives into a dictionary under the given keys, position
    by position. *)
Definition unpack_dict_to_bag (values : list value) (keys : list value) : value :=
  VDict (zip keys values).

(** Lookup of an Edge in a dictionary value. *)
Definition is_edge_key (e : Edge) (k : value) : bool :=
  match k with
  | VEdge e' => bool_decide (e = e')
  | _ => false
  end.

Fixpoint assoc_edge (e : Edge) (kvs : list (value * value)) : option value :=
  match kvs with
  | [] => None
  | (k, x) :: kvs' => if is_edge_key e k then Some x else assoc_edge e kvs'
  end.

Definition dict_get (e : Edge) (d : value) : option value :=
  match d with
  | VDict kvs => assoc_edge e kvs
  | _ => None
  end.

(** ** Evaluation: the synchronous scheduler *)

(** How [dask.bag.map] feeds an argument to the mapped function: a bag
    element by element, anything else repeated for every call. *)
Inductive spread : Type :=
| Each (xs : list value)
| Same (x : value).

Definition spread_at (i : nat) (s : spread) : value :=
  match s with
  | Each xs => nth i xs VNone
  | Same x => x
  end.

(** The number of calls that [map_chunk] makes: its [zip] stops at the
    shortest bag.  Whether the bags were of one length is checked
    afterwards, by [leftover]. *)
Fixpoint zip_len (ss : list spread) : option nat :=
  match ss with
  | [] => None
  | Each xs :: ss' =>
      match zip_len ss' with
      | Some n => Some (Nat.min (length xs) n)
      | None => Some (length xs)
      end
  | Same _ :: ss' => zip_len ss'
  end.

(** The check that ends [map_chunk]: is an element left in one of the
    bags?  [zip] asks the iterators in order and stops at the first that
    is exhausted, in round [n]; by then every bag before that one has
    given up one element more, which is lost.  [stopped] says whether the
    bag that stopped [zip] is already behind. *)
Fixpoint leftover (n : nat) (stopped : bool) (ss : list spread) : bool :=
  match ss with
  | [] => false
  | Same _ :: ss' => leftover n stopped ss'
  | Each xs :: ss' =>
      if stopped then (n <? length xs)%nat || leftover n true ss'
      else if (length xs =? n)%nat then leftover n true ss'
      else (S n <? length xs)%nat || leftover n false ss'
  end.

(** What [map_chunk] raises when an element is left. *)
Definition NotIdenticallyPartitioned : exn :=
  ValueError "map called with multiple bags that aren't identically partitioned. Please ensure that all bag arguments have the same partition lengths".

Section Runtime.

(** The world that the caller's functions act on, and the functions
    themselves: [call name args kwargs] runs the function called [name],
    returns or raises, and leaves the world changed. *)
Context {W : Type}.
Variable call : string -> list value -> kwargs_t -> W -> result value * W.

Definition M (A : Type) : Type := W -> result A * W.

Definition ret {A : Type} (a : A) : M A := fun w => (Ok a, w).

Definition raise {A : Type} (e : exn) : M A := fun w => (Err e, w).

Definition bind {A B : Type} (m : M A) (k : A -> M B) : M B :=
  fun w =>
    match m w with
    | (Ok a, w') => k a w'
    | (Err e, w') => (Err e, w')
    end.

Notation "x <- m ;; k" := (bind m (fun x => k))
  (at level 100, m at next level, right associativity).

Definition mapM {A B : Type} (f : A -> M B) : list A -> M (list B) :=
  fix go (l : list A) : M (list B) :=
    match l with
    | [] => ret []
    | x :: l' => y <- f x ;; ys <- go l' ;; ret (y :: ys)
    end.

(** Calling one of the callables on evaluated arguments. *)
Definition apply (f : func) (args : list value) (kwargs : kwargs_t) : M value :=
  match f with
  | Fuser name => call name args kwargs
  | Fstate_to_list =>
      match args, kwargs with
      | [s], [] => ret (VList (state_to_list s))
      | _, _ => raise (TypeError "state_to_list() takes exactly one argument")
      end
  | Funpack_dict_to_bag =>
      match kwargs with
      | [(k, ks)] =>
          if bool_decide (k = "keys") then
            match seq_items ks with
            | Some keys => ret (unpack_dict_to_bag args keys)
            | None => raise (TypeError "zip argument #1 must support iteration")
            end
          else raise (TypeError "unpack_dict_to_bag() got an unexpected keyword argument")
      | _ => raise (TypeError "unpack_dict_to_bag() missing keyword-only argument: keys")
      end
  end.

(** An argument of [dask.bag.map], once its dependencies are computed
    by [force]: a bag gives its elements, a Delayed its result, and
    anything else is passed on as it is. *)
Definition spread_arg (force : value -> M value) (a : value) : M spread :=
  match a with
  | VBagFromDelayed _ | VBagMap _ _ _ =>
      r <- force a ;; ret (Each (default [] (seq_items r)))
  | VDelayed _ _ _ => r <- force a ;; ret (Same r)
  | _ => ret (Same a)
  end.

(** [map_chunk] of dask.bag on the one partition: the function is called
    on what the arguments give at place 0, 1, ... for as long as [zip]
    goes; then, if a bag still holds an element, ValueError is raised. *)
Definition map_chunk (f : func) (args' : list spread)
    (kwargs' : list (string * spread)) : M value :=
  rs <- mapM (fun i =>
          apply f (List.map (spread_at i) args')
                  (List.map (fun ks => (fst ks, spread_at i (snd ks))) kwargs'))
        (seq 0 (default 0%nat (zip_len (args' ++ List.map snd kwargs')))) ;;
  if leftover (default 0%nat (zip_len (args' ++ List.map snd kwargs'))) false
              (args' ++ List.map snd kwargs')
  then raise NotIdenticallyPartitioned
  else ret (VList rs).

(** One pass of [dask.compute] over a value.  Builtin collections are
    traversed; a Delayed is forced: its arguments are traversed the same
    way, then the function is called, and what it returns is left as it
    is; a bag is forced to the list of its elements.  A task runs after
    the tasks it depends on, and the elements of one bag are worked
    through in order.  The order of tasks that do not depend on one
    another is the scheduler's choice (dask goes by their keys), and so is
    the interleaving of the calls of chained bags (dask fuses them); here
    independent tasks run from left to right and a bag is forced before
    the bag that is mapped over it.  That choice shows only in the order
    in which functions with effects act on the world. *)
Fixpoint traverse (v : value) : M value :=
  match v with
  | VNone | VInt _ | VStr _ | VEdge _ => ret v
  | VList xs => ys <- mapM traverse xs ;; ret (VList ys)
  | VTuple xs => ys <- mapM traverse xs ;; ret (VTuple ys)
  | VDict kvs =>
      kvs' <- mapM (fun kv => let '(k, x) := kv in
                      k' <- traverse k ;; x' <- traverse x ;; ret (k', x')) kvs ;;
      ret (VDict kvs')
  | VDelayed f args kwargs =>
      args' <- mapM traverse args ;;
      kwargs' <- mapM (fun kv => let '(k, x) := kv in
                         x' <- traverse x ;; ret (k, x')) kwargs ;;
      apply f args' kwargs'
  | VBagFromDelayed s =>
      s' <- traverse s ;;
      part <- apply Fstate_to_list [s'] [] ;;
      match seq_items part with
      | Some xs => ret (VList xs)
      | None => raise (TypeError "object is not iterable")
      end
  | VBagMap f args kwargs =>
      args' <- mapM (spread_arg traverse) args ;;
      kwargs' <- mapM (fun kv => let '(k, a) := kv in
                         s <- spread_arg traverse a ;; ret (k, s)) kwargs ;;
      map_chunk f args' kwargs'
  end.

(** [dask.compute( *args )]: the tuple of the computed arguments. *)
Definition dask_compute (args : list value) : M (list value) :=
  mapM traverse args.

(** [n] passes of [dask.compute], each over the result of the one before. *)
Fixpoint compute_passes (n : nat) (v : value) : M value :=
  match n with
  | O => ret v
  | S n' => bind (traverse v) (compute_passes n')
  end.

(** [t[0]] *)
Definition getitem0 (t : list value) : M value :=
  match t with
  | x :: _ => ret x
  | [] => raise (IndexError "tuple index out of range")
  end.

(** ** SynchronousExecutor.submit *)
Definition submit (fn : func) (args : list value) (kwargs : kwargs_t) : value :=
  VDelayed fn args kwargs.

(** ** SynchronousExecutor.wait

    [timeout] is a [datetime.timedelta] in microseconds, or [None]. *)
Definition wait (futures : value) (timeout : option Z) : M value :=
  c1 <- dask_compute [futures] ;;
  f1 <- getitem0 c1 ;;
  c2 <- dask_compute [f1] ;;
  f2 <- getitem0 c2 ;;
  c3 <- dask_compute [f2] ;;
  f3 <- getitem0 c3 ;;
  computed <- dask_compute [f3] ;;
  getitem0 computed.

End Runtime.

(** ** Dictionaries keyed by Edge *)

(** [upstream_states]: a Python dict from Edge to upstream state.  The
    entries are kept in insertion order, which [map] relies on when it
    unpacks the dictionary. *)
Definition ups : Type := list (Edge * value).

(** [d[k] = v]: an existing key keeps its position, a new one goes last. *)
Fixpoint dict_set (k : Edge) (v : value) (d : ups) : ups :=
  match d with
  | [] => [(k, v)]
  | (k', v') :: d' =>
      if bool_decide (k = k') then (k', v) :: d' else (k', v') :: dict_set k v d'
  end.

(** [d.update(upd)] *)
Definition dict_update (d upd : ups) : ups :=
  foldl (fun acc kv => dict_set (fst kv) (snd kv) acc) d upd.

(** The comprehension that builds [needs_bagging]. *)
Definition needs_bagging (upstream_states : ups) : ups :=
  foldl (fun acc kv =>
           let '(edge, v) := kv in
           if mapped edge && negb (is_bag v)
           then dict_set edge (VBagFromDelayed v) acc
           else acc)
        [] upstream_states.

(** The entries that the comprehension selects, in their order. *)
Definition to_bag (d : ups) : ups :=
  flat_map (fun kv : Edge * value =>
              if mapped (fst kv) && negb (is_bag (snd kv))
              then [(fst kv, VBagFromDelayed (snd kv))] else []) d.

(** [d.items()], each item a pair. *)
Definition items (d : ups) : list (list value) :=
  List.map (fun kv => [VEdge (fst kv); snd kv]) d.

(** [zip( *rows )]: column by column, as long as every row has an element. *)
Fixpoint py_zip_n (n : nat) (rows : list (list value)) : list (list value) :=
  match n with
  | O => []
  | S n' => List.map (hd VNone) rows :: py_zip_n n' (List.map (@tl value) rows)
  end.

Definition py_zip (rows : list (list value)) : list (list value) :=
  match rows with
  | [] => []
  | r :: rows' =>
      py_zip_n (foldl (fun m r' => Nat.min m (length r')) (length r) rows') rows
  end.

(** [a, b = xs] *)
Definition unpack2 (xs : list (list value)) : result (list value * list value) :=
  match xs with
  | [a; b] => Ok (a, b)
  | [] => Err (ValueError "not enough values to unpack (expected 2, got 0)")
  | [_] => Err (ValueError "not enough values to unpack (expected 2, got 1)")
  | _ => Err (ValueError "too many values to unpack (expected 2)")
  end.

(** [dask.bag.map(f, *args, **kwargs)]: builds the lazy bag; it refuses at
    once a call in which no argument is a bag.  (All bags here have one
    partition, so their partitions always agree.) *)
Definition bag_map (f : func) (args : list value) (kwargs : kwargs_t) : result value :=
  if existsb is_bag args || existsb (fun kv => is_bag (snd kv)) kwargs
  then Ok (VBagMap f args kwargs)
  else Err (ValueError "At least one argument must be a Bag.").

(** ** SynchronousExecutor.map *)

(** The local [bagged_states] of [map]: the dictionary is unpacked into
    its keys and its values, in order, and the values are zipped by
    [dask.bag.map] into one dictionary per element. *)
Definition bagged_states (upstream_states : ups) : result value :=
  match unpack2 (py_zip (items upstream_states)) with
  | Err e => Err e
  | Ok (keys, values) =>
      bag_map Funpack_dict_to_bag values [("keys", VTuple keys)]
  end.

(** [upstream_states] is [None] or the caller's dictionary.  The second
    component of the outcome is the caller's object after the call: the
    dictionary is updated in place. *)
Definition map (fn : func) (args : list value) (upstream_states : option ups)
    (kwargs : kwargs_t) : result value * option ups :=
  match upstream_states with
  | None => (Err AssertionError, None)
  | Some d =>
      let d' := dict_update d (needs_bagging d) in
      (match bagged_states d' with
       | Err e => Err e
       | Ok bagged =>
           bag_map fn args (("upstream_states", bagged) :: kwargs)
       end, Some d')
  end.

(** The entry that [map] leaves in the caller's dictionary in place of
    [kv]: a mapped Edge whose value is no bag yet gets the lazily converted
    bag; any other entry stays. *)
Definition bagged_entry (kv : Edge * value) : Edge * value :=
  let '(edge, v) := kv in
  (edge, if mapped edge && negb (is_bag v) then VBagFromDelayed v else v).

(** ** SynchronousExecutor.start *)

(** [dask.config.set(key=v)]: sets the key at once and remembers what was
    there; leaving the [with] block puts that back. *)
Definition config_set (key : string) (v : value) (config : gmap string value)
    : option value * gmap string value :=
  (config !! key, <[key := v]> config).

Definition config_exit (key : string) (old : option value)
    (config : gmap string value) : gmap string value :=
  match old with
  | Some v => <[key := v]> config
  | None => delete key config
  end.

(** [with executor.start() as cfg: body]: the body runs on the process-wide
    configuration and returns or raises; [__exit__] runs either way and an
    exception goes on to the caller. *)
Definition start {A : Type} (body : gmap string value -> result A * gmap string value)
    (config : gmap string value) : result A * gmap string value :=
  let '(old, cfg) := config_set "scheduler" (VStr "synchronous") config in
  let '(r, cfg') := body cfg in
  (r, config_exit "scheduler" old cfg').

(** ** A concrete world *)

Module Demo.

(** Elapsed time in microseconds and the names of the functions run. *)
Record world : Type := mkWorld { clock : Z; trace : list string }.

Definition tick (name : string) (dt : Z) (w : world) : world :=
  mkWorld (clock w + dt) (trace w ++ [name]).

Definition e1 : Edge := mkEdge "e1" true.
Definition e2 : Edge := mkEdge "e2" false.
Definition e3 : Edge := mkEdge "e3" false.

(** - [answer]: [lambda: 42]
    - [boom]: raises [ValueError("x")]
    - [nest]: [lambda n: dask.delayed(nest)(n - 1) if n > 0 else 42]
    - [sleep]: [lambda us: time.sleep(us)], returns [None]
    - [times10]: ten times the value under [e1] in [upstream_states]
    Every call is recorded in the trace. *)
Definition call (name : string) (args : list value) (kwargs : kwargs_t)
    (w : world) : result value * world :=
  if bool_decide (name = "answer") then (Ok (VInt 42), tick name 1 w)
  else if bool_decide (name = "boom") then (Err (ValueError "x"), tick name 1 w)
  else if bool_decide (name = "nest") then
    match args with
    | [VInt n] =>
        (Ok (if bool_decide (0 < n)
             then VDelayed (Fuser "nest") [VInt (n - 1)] []
             else VInt 42), tick name 1 w)
    | _ => (Err (TypeError "nest() takes one int"), tick name 1 w)
    end
  else if bool_decide (name = "sleep") then
    match args with
    | [VInt us] => (Ok VNone, tick name us w)
    | _ => (Err (TypeError "sleep() takes one int"), tick name 1 w)
    end
  else if bool_decide (name = "times10") then
    match kwargs with
    | [(_, d)] =>
        match dict_get e1 d with
        | Some (VInt x) => (Ok (VInt (10 * x)), tick name 1 w)
        | _ => (Err (TypeError "times10() needs an int under e1"), tick name 1 w)
        end
    | _ => (Err (TypeError "times10() takes upstream_states"), tick name 1 w)
    end
  else (Err (Exn "NameError" name None), w).

Definition w0 : world := mkWorld 0 [].

(** What [map(times10, upstream_states={e1: [1, 2, 3]})] returns. *)
Definition first_map : value :=
  VBagMap (Fuser "times10") []
    [("upstream_states",
      VBagMap Funpack_dict_to_bag
        [VBagFromDelayed (VList [VInt 1; VInt 2; VInt 3])]
        [("keys", VTuple [VEdge e1])])].

(** The local [bagged_states] of
    [map(fn, upstream_states={e2: first_map, e1: [1, 2, 3]})]. *)
Definition zipped_bagged : value :=
  VBagMap Funpack_dict_to_bag
    [first_map; VBagFromDelayed (VList [VInt 1; VInt 2; VInt 3])]
    [("keys", VTuple [VEdge e2; VEdge e1])].

End Demo.

(** ** SynchronousExecutor.queue *)

(** [queue.Queue]: the bound it was built with and what it holds, oldest
    first.  [Full] and [Empty] are the exceptions of the non-blocking
    calls; on the single thread of this executor a blocking [put] on a
    full queue or [get] on an empty one would never return. *)
Record Queue : Type := mkQueue { q_maxsize : Z; q_items : list value }.

Definition Full : exn := Exn "Full" "" None.
Definition Empty : exn := Exn "Empty" "" None.

(** [Queue(maxsize=maxsize)] *)
Definition Queue_new (maxsize : Z) : Queue := mkQueue maxsize [].

(** [q.qsize()] *)
Definition qsize (q : Queue) : Z := Z.of_nat (length (q_items q)).

(** [q.full()]: [0 < maxsize <= qsize]. *)
Definition full (q : Queue) : bool :=
  (0 <? q_maxsize q)%Z && (q_maxsize q <=? qsize q)%Z.

(** [q.put_nowait(x)] *)
Definition put_nowait (x : value) (q : Queue) : result unit * Queue :=
  if full q then (Err Full, q)
  else (Ok tt, mkQueue (q_maxsize q) (q_items q ++ [x])).

(** [q.get_nowait()] *)
Definition get_nowait (q : Queue) : result value * Queue :=
  match q_items q with
  | [] => (Err Empty, q)
  | x :: rest => (Ok x, mkQueue (q_maxsize q) rest)
  end.

(** [for x in xs: q.put_nowait(x)], stopping at the first [Full]. *)
Fixpoint put_all (xs : list value) (q : Queue) : result unit * Queue :=
  match xs with
  | [] => (Ok tt, q)
  | x :: xs' =>
      match put_nowait x q with
      | (Ok _, q') => put_all xs' q'
      | (Err e, q') => (Err e, q')
      end
  end.

(** [[q.get_nowait() for _ in range(n)]], stopping at the first [Empty]. *)
Fixpoint get_n (n : nat) (q : Queue) : result (list value) * Queue :=
  match n with
  | O => (Ok [], q)
  | S n' =>
      match get_nowait q with
      | (Ok x, q') =>
          match get_n n' q' with
          | (Ok xs, q'') => (Ok (x :: xs), q'')
          | (Err e, q'') => (Err e, q'')
          end
      | (Err e, q') => (Err e, q')
      end
  end.

(** The method: [q = Queue(maxsize=maxsize); return q]. *)
Definition queue (maxsize : Z) : Queue := Queue_new maxsize.

(** ** A second concrete world *)

Module Demo2.

(** [Demo.call] and one more function:
    - [lazy_boom]: [lambda: dask.delayed(boom)()] *)
Definition call (name : string) (args : list value) (kwargs : kwargs_t)
    (w : Demo.world) : result value * Demo.world :=
  if bool_decide (name = "lazy_boom")
  then (Ok (VDelayed (Fuser "boom") [] []), Demo.tick name 1 w)
  else Demo.call name args kwargs w.

Definition e4 : Edge := mkEdge "e4" true.

End Demo2.

(** ** A world without effects *)

Module Pure.

(** Functions that touch nothing:
    - [succ]: one more than the value under [Demo.e1] in [upstream_states]
    - [double]: twice the value under [Demo2.e4] in [upstream_states]
    - [one_two_three]: [lambda: [1, 2, 3]] *)
Definition call (name : string) (args : list value) (kwargs : kwargs_t)
    (w : unit) : result value * unit :=
  if bool_decide (name = "succ") then
    match kwargs with
    | [(_, d)] =>
        match dict_get Demo.e1 d with
        | Some (VInt x) => (Ok (VInt (x + 1)), w)
        | _ => (Err (TypeError "succ() needs an int under e1"), w)
        end
    | _ => (Err (TypeError "succ() takes upstream_states"), w)
    end
  else if bool_decide (name = "double") then
    match kwargs with
    | [(_, d)] =>
        match dict_get Demo2.e4 d with
        | Some (VInt x) => (Ok (VInt (2 * x)), w)
        | _ => (Err (TypeError "double() needs an int under e4"), w)
        end
    | _ => (Err (TypeError "double() takes upstream_states"), w)
    end
  else if bool_decide (name = "one_two_three") then
    (Ok (VList [VInt 1; VInt 2; VInt 3]), w)
  else (Err (Exn "NameError" name None), w).

End Pure.

(** * Properties *)

(** ** Induction over values *)

Section ValueInd.
Variable P : value -> Prop.
Hypothesis HNone : P VNone.
Hypothesis HInt : forall z, P (VInt z).
Hypothesis HStr : forall s, P (VStr s).
Hypothesis HEdge : forall e, P (VEdge e).
Hypothesis HList : forall xs, Forall P xs -> P (VList xs).
Hypothesis HTuple : forall xs, Forall P xs -> P (VTuple xs).
Hypothesis HDict : forall kvs,
    Forall (fun kv => P (fst kv) /\ P (snd kv)) kvs -> P (VDict kvs).
Hypothesis HDelayed : forall f args kwargs,
    Forall P args -> Forall (fun kv => P (snd kv)) kwargs ->
    P (VDelayed f args kwargs).
Hypothesis HFrom : forall v, P v -> P (VBagFromDelayed v).
Hypothesis HBagMap : forall f args kwargs,
    Forall P args -> Forall (fun kv => P (snd kv)) kwargs ->
    P (VBagMap f args kwargs).

Fixpoint value_ind' (v : value) : P v :=
  let all :=
    fix all (xs : list value) : Forall P xs :=
      match xs with
      | [] => @List.Forall_nil _ P
      | x :: xs' => @List.Forall_cons _ P x xs' (value_ind' x) (all xs')
      end in
  let all_kw :=
    fix all_kw (kvs : list (string * value))
      : Forall (fun kv => P (snd kv)) kvs :=
      match kvs with
      | [] => @List.Forall_nil _ _
      | (k, x) :: kvs' =>
          @List.Forall_cons _ (fun kv => P (snd kv)) (k, x) kvs'
            (value_ind' x) (all_kw kvs')
      end in
  match v with
  | VNone => HNone
  | VInt z => HInt z
  | VStr s => HStr s
  | VEdge e => HEdge e
  | VList xs => HList xs (all xs)
  | VTuple xs => HTuple xs (all xs)
  | VDict kvs =>
      HDict kvs
        ((fix all_kv (kvs : list (value * value))
            : Forall (fun kv => P (fst kv) /\ P (snd kv)) kvs :=
            match kvs with
            | [] => @List.Forall_nil _ _
            | (k, x) :: kvs' =>
                @List.Forall_cons _ (fun kv => P (fst kv) /\ P (snd kv)) (k, x) kvs'
                  (conj (value_ind' k) (value_ind' x)) (all_kv kvs')
            end) kvs)
  | VDelayed f args kwargs => HDelayed f args kwargs (all args) (all_kw kwargs)
  | VBagFromDelayed v' => HFrom v' (value_ind' v')
  | VBagMap f args kwargs => HBagMap f args kwargs (all args) (all_kw kwargs)
  end.
End ValueInd.

(** ** The evaluation monad *)

Section MonadFacts.
Context {W : Type}.

Lemma bind_ok {A B : Type} (m : M (W := W) A) (k : A -> M B) w a w1 :
  m w = (Ok a, w1) -> bind m k w = k a w1.
Proof. intros E. unfold bind. now rewrite E. Qed.

Lemma bind_err {A B : Type} (m : M (W := W) A) (k : A -> M B) w e w1 :
  m w = (Err e, w1) -> bind m k w = (Err e, w1).
Proof. intros E. unfold bind. now rewrite E. Qed.

Lemma bind_inv_ok {A B : Type} (m : M (W := W) A) (k : A -> M B) w b w' :
  bind m k w = (Ok b, w') ->
  exists a w1, m w = (Ok a, w1) /\ k a w1 = (Ok b, w').
Proof.
  unfold bind. destruct (m w) as [[a|e] w1]; [eauto | discriminate].
Qed.

Lemma bind_ext {A B : Type} (m : M (W := W) A) (k1 k2 : A -> M B) w :
  (forall a w1, k1 a w1 = k2 a w1) -> bind m k1 w = bind m k2 w.
Proof. intros E. unfold bind. destruct (m w) as [[a|e] w1]; auto. Qed.

Lemma bind_assoc {A B C : Type} (m : M (W := W) A) (k : A -> M B)
    (h : B -> M C) w :
  bind (bind m k) h w = bind m (fun a => bind (k a) h) w.
Proof. unfold bind. destruct (m w) as [[a|e] w1]; reflexivity. Qed.

Lemma mapM_nil {A B : Type} (f : A -> M (W := W) B) w :
  mapM f [] w = (Ok [], w).
Proof. reflexivity. Qed.

Lemma mapM_cons {A B : Type} (f : A -> M (W := W) B) x xs :
  mapM f (x :: xs) =
  bind (f x) (fun y => bind (mapM f xs) (fun ys => ret (y :: ys))).
Proof. reflexivity. Qed.

(** A function that returns its argument and leaves the world alone
    does so over a whole list. *)
Lemma mapM_id {A : Type} (f : A -> M (W := W) A) xs :
  Forall (fun x => forall w, f x w = (Ok x, w)) xs ->
  forall w, mapM f xs w = (Ok xs, w).
Proof.
  induction 1 as [|x xs Hx _ IH]; intros w; [reflexivity|].
  rewrite mapM_cons. erewrite bind_ok by apply Hx.
  erewrite bind_ok by apply IH. reflexivity.
Qed.

(** A pure function maps like [List.map]. *)
Lemma mapM_pure {A B : Type} (f : A -> M (W := W) B) (g : A -> B) xs :
  Forall (fun x => forall w, f x w = (Ok (g x), w)) xs ->
  forall w, mapM f xs w = (Ok (List.map g xs), w).
Proof.
  induction 1 as [|x xs Hx _ IH]; intros w; [reflexivity|].
  rewrite mapM_cons. erewrite bind_ok by apply Hx.
  erewrite bind_ok by apply IH. reflexivity.
Qed.

(** What [mapM] returns lines up with its input, position by position:
    each result is what the function returned for the element at the
    same place, in some world on the way. *)
Lemma mapM_Forall2 {A B : Type} (f : A -> M (W := W) B) xs :
  forall w ys w',
    mapM f xs w = (Ok ys, w') ->
    Forall2 (fun x y => exists wi wi', f x wi = (Ok y, wi')) xs ys.
Proof.
  induction xs as [|x xs IH]; intros w ys w' E.
  - inversion E. constructor.
  - rewrite mapM_cons in E.
    apply bind_inv_ok in E as (y & w1 & Ey & E).
    apply bind_inv_ok in E as (ys' & w2 & Eys & E).
    inversion E; subst. constructor; eauto.
Qed.

End MonadFacts.

(** ** One pass over a resolved value *)

Section TraverseFacts.
Context {W : Type}.
Variable call : string -> list value -> kwargs_t -> W -> result value * W.

(** [dask.compute] finds nothing to do in a value without pending
    wrappers: it gives it back and runs nothing. *)
Lemma traverse_resolved (v : value) :
  resolved v = true -> forall w, traverse call v w = (Ok v, w).
Proof.
  induction v as [| | | |xs IH|xs IH|kvs IH|? ? ? _ _|? _|? ? ? _ _]
    using value_ind'; simpl; intros R w; try reflexivity; try discriminate;
    (erewrite bind_ok; [reflexivity|]); apply mapM_id;
    rewrite forallb_forall in R; rewrite Forall_forall in IH |- *.
  - intros x Hx. apply IH; [done|]. apply R, list_elem_of_In, Hx.
  - intros x Hx. apply IH; [done|]. apply R, list_elem_of_In, Hx.
  - intros [k x] Hx w1. specialize (IH _ Hx) as [IHk IHx].
    apply list_elem_of_In, R, andb_true_iff in Hx as [Rk Rx].
    simpl in *. erewrite bind_ok by (apply IHk, Rk).
    erewrite bind_ok by (apply IHx, Rx). reflexivity.
Qed.

End TraverseFacts.

(** ** wait *)

Section WaitFacts.
Context {W : Type}.
Variable call : string -> list value -> kwargs_t -> W -> result value * W.

Lemma compute_item0 {B : Type} (x : value) (k : value -> M B) w :
  bind (dask_compute call [x]) (fun c => bind (getitem0 c) k) w =
  bind (traverse call x) k w.
Proof.
  unfold dask_compute, bind at 1 3. simpl. unfold bind at 1, ret.
  destruct (traverse call x w) as [[a|e] w1]; reflexivity.
Qed.

(** [wait] is four passes: the four nested calls of [dask.compute]. *)
Lemma wait_passes futures timeout w :
  wait call futures timeout w = compute_passes call 4 futures w.
Proof.
  unfold wait. rewrite compute_item0.
  change (compute_passes call 4 futures)
    with (bind (traverse call futures) (compute_passes call 3)).
  apply bind_ext; intros f1 w1. rewrite compute_item0.
  change (compute_passes call 3 f1)
    with (bind (traverse call f1) (compute_passes call 2)).
  apply bind_ext; intros f2 w2. rewrite compute_item0.
  change (compute_passes call 2 f2)
    with (bind (traverse call f2) (compute_passes call 1)).
  apply bind_ext; intros f3 w3.
  unfold dask_compute, compute_passes, bind. simpl. unfold bind, ret.
  destruct (traverse call f3 w3) as [[f4|e] w4]; reflexivity.
Qed.

Lemma compute_passes_resolved n v w :
  resolved v = true -> compute_passes call n v w = (Ok v, w).
Proof.
  intros R. induction n as [|n IH]; [reflexivity|]. simpl.
  erewrite bind_ok by (apply traverse_resolved, R). exact IH.
Qed.

Lemma compute_passes_add k j v w :
  compute_passes call (k + j) v w =
  bind (compute_passes call k v) (compute_passes call j) w.
Proof.
  revert v w. induction k as [|k IH]; intros v w; [reflexivity|].
  simpl. rewrite bind_assoc. apply bind_ext. intros v1 w1. apply IH.
Qed.

(** Once some passes, four at most, have reached a value without pending
    wrappers, the remaining passes of [wait] leave it as it is. *)
Lemma wait_of_passes futures timeout k w v w' :
  (k <= 4)%nat ->
  compute_passes call k futures w = (Ok v, w') ->
  resolved v = true ->
  wait call futures timeout w = (Ok v, w').
Proof.
  intros Hk E R. rewrite wait_passes.
  replace 4%nat with (k + (4 - k))%nat by lia.
  rewrite compute_passes_add. erewrite bind_ok by exact E.
  now apply compute_passes_resolved.
Qed.

Lemma resolved_kwargs (kwargs : kwargs_t) :
  forallb (fun kv => resolved (snd kv)) kwargs = true ->
  forall w,
    mapM (fun kv : string * value =>
            let '(k, x) := kv in
            bind (traverse call x) (fun x' => ret (k, x'))) kwargs w
    = (Ok kwargs, w).
Proof.
  intros R. apply mapM_id. rewrite forallb_forall in R.
  apply Forall_forall. intros [k x] Hx w.
  apply list_elem_of_In, R in Hx. simpl in Hx.
  erewrite bind_ok by (apply traverse_resolved, Hx). reflexivity.
Qed.

(** Forcing a Future whose arguments are plain values is one call of
    its function. *)
Lemma traverse_delayed fn args kwargs w :
  forallb resolved args = true ->
  forallb (fun kv => resolved (snd kv)) kwargs = true ->
  traverse call (VDelayed (Fuser fn) args kwargs) w = call fn args kwargs w.
Proof.
  intros Ra Rk. simpl.
  assert (Ea : mapM (traverse call) args w = (Ok args, w)).
  { apply mapM_id, Forall_forall. intros x Hx w'.
    apply traverse_resolved. rewrite forallb_forall in Ra.
    apply Ra, list_elem_of_In, Hx. }
  erewrite bind_ok by exact Ea.
  erewrite bind_ok by (apply resolved_kwargs, Rk).
  reflexivity.
Qed.

Lemma traverse_singleton (x : value) w :
  traverse call (VList [x]) w =
  bind (traverse call x) (fun r => ret (VList [r])) w.
Proof.
  change (traverse call (VList [x]))
    with (bind (mapM (traverse call) [x]) (fun ys => ret (VList ys))).
  rewrite mapM_cons. unfold bind, ret. simpl.
  destruct (traverse call x w) as [[r|e] w1]; reflexivity.
Qed.

Lemma traverse_submit fn args kwargs w :
  forallb resolved args = true ->
  forallb (fun kv => resolved (snd kv)) kwargs = true ->
  traverse call (VList [submit (Fuser fn) args kwargs]) w =
  bind (call fn args kwargs) (fun r => ret (VList [r])) w.
Proof.
  intros Ra Rk. rewrite traverse_singleton. unfold bind, submit.
  now rewrite traverse_delayed.
Qed.

End WaitFacts.

(** ** Dictionaries *)

Section DictFacts.

Lemma dict_set_fresh (k : Edge) (v : value) (d : ups) :
  k ∉ d.*1 -> dict_set k v d = d ++ [(k, v)].
Proof.
  induction d as [|[k' v'] d IH]; simpl; intros Hk; [reflexivity|].
  rewrite not_elem_of_cons in Hk. destruct Hk as [Hne Hk].
  rewrite bool_decide_eq_false_2 by exact Hne. now rewrite IH.
Qed.

Lemma dict_set_app_fresh (k : Edge) (x v : value) (pre d : ups) :
  k ∉ pre.*1 ->
  dict_set k x (pre ++ (k, v) :: d) = pre ++ (k, x) :: d.
Proof.
  induction pre as [|[k' v'] pre IH]; simpl; intros Hk.
  - now rewrite bool_decide_eq_true_2.
  - rewrite not_elem_of_cons in Hk. destruct Hk as [Hne Hk].
    rewrite bool_decide_eq_false_2 by exact Hne. now rewrite IH.
Qed.

Lemma needs_bagging_acc (d acc : ups) :
  NoDup d.*1 -> (forall k, k ∈ acc.*1 -> k ∉ d.*1) ->
  foldl (fun acc kv =>
           let '(edge, v) := kv in
           if mapped edge && negb (is_bag v)
           then dict_set edge (VBagFromDelayed v) acc
           else acc) acc d
  = acc ++ to_bag d.
Proof.
  revert acc. induction d as [|[e v] d IH]; simpl; intros acc ND Hd.
  - now rewrite app_nil_r.
  - apply NoDup_cons in ND as [He ND].
    destruct (mapped e && negb (is_bag v)); simpl.
    + rewrite dict_set_fresh by (intros Hin; apply (Hd _ Hin); left).
      rewrite IH; [now rewrite <- app_assoc | exact ND |].
      intros k Hk. rewrite fmap_app, elem_of_app in Hk.
      destruct Hk as [Hk|Hk].
      * specialize (Hd _ Hk). rewrite not_elem_of_cons in Hd. tauto.
      * simpl in Hk. apply list_elem_of_singleton in Hk. now subst.
    + apply IH; [exact ND|]. intros k Hk. specialize (Hd _ Hk).
      rewrite not_elem_of_cons in Hd. tauto.
Qed.

Lemma needs_bagging_to_bag (d : ups) :
  NoDup d.*1 -> needs_bagging d = to_bag d.
Proof.
  intros ND. unfold needs_bagging.
  rewrite needs_bagging_acc; [reflexivity | exact ND |].
  intros k Hk. now apply elem_of_nil in Hk.
Qed.

Lemma dict_update_to_bag (d pre : ups) :
  NoDup d.*1 -> (forall k, k ∈ pre.*1 -> k ∉ d.*1) ->
  dict_update (pre ++ d) (to_bag d) = pre ++ List.map bagged_entry d.
Proof.
  revert pre. induction d as [|[e v] d IH]; intros pre ND Hd; [reflexivity|].
  apply NoDup_cons in ND as [He ND]. simpl.
  assert (Hpre : e ∉ pre.*1) by (intros Hin; apply (Hd _ Hin); left).
  assert (Hnext : forall x k, k ∈ (pre ++ [(e, x)]).*1 -> k ∉ d.*1).
  { intros x k Hk. rewrite fmap_app, elem_of_app in Hk.
    destruct Hk as [Hk|Hk].
    - specialize (Hd _ Hk). rewrite fmap_cons, not_elem_of_cons in Hd. tauto.
    - simpl in Hk. apply list_elem_of_singleton in Hk. now subst. }
  destruct (mapped e && negb (is_bag v)); simpl.
  - unfold dict_update. simpl. rewrite dict_set_app_fresh by exact Hpre.
    change (foldl ?f ?a (to_bag d)) with (dict_update a (to_bag d)).
    rewrite (cons_middle _ pre), app_assoc.
    rewrite IH by eauto. now rewrite <- app_assoc.
  - rewrite (cons_middle _ pre), app_assoc.
    rewrite IH by eauto. now rewrite <- app_assoc.
Qed.

(** The in-place update of [map], entry by entry. *)
Lemma dict_update_needs_bagging (d : ups) :
  NoDup d.*1 ->
  dict_update d (needs_bagging d) = List.map bagged_entry d.
Proof.
  intros ND. rewrite needs_bagging_to_bag by exact ND.
  apply (dict_update_to_bag d []); [exact ND |].
  intros k Hk. now apply elem_of_nil in Hk.
Qed.

Lemma bagged_entry_keys (d : ups) : (List.map bagged_entry d).*1 = d.*1.
Proof.
  induction d as [|[e v] d IH]; [reflexivity|].
  simpl. f_equal. exact IH.
Qed.

End DictFacts.

(** ** Unpacking the dictionary *)

Section UnpackFacts.

Lemma min_rows_two (rows : list (list value)) :
  Forall (fun r => length r = 2%nat) rows ->
  foldl (fun m r' => Nat.min m (length r')) 2%nat rows = 2%nat.
Proof.
  induction 1 as [|r rows Hr _ IH]; simpl; [reflexivity|].
  now rewrite Hr.
Qed.

Lemma items_rows (d : ups) : Forall (fun r => length r = 2%nat) (items d).
Proof. unfold items. apply Forall_forall. intros r Hr.
       apply list_elem_of_In, in_map_iff in Hr as (kv & <- & _). reflexivity.
Qed.

(** [zip] of the items of a dictionary that is not empty: its keys, then
    its values, both in the order of the dictionary. *)
Lemma py_zip_items (d : ups) :
  d <> [] ->
  py_zip (items d) = [List.map (fun kv => VEdge (fst kv)) d; List.map snd d].
Proof.
  intros Hd. destruct d as [|kv d]; [done|].
  change (py_zip (items (kv :: d)))
    with (py_zip_n (foldl (fun m r' => Nat.min m (length r')) 2%nat (items d))
                   (items (kv :: d))).
  rewrite min_rows_two by apply items_rows.
  generalize (kv :: d) as l. intros l. unfold items. simpl.
  rewrite !List.map_map. reflexivity.
Qed.

Lemma bagged_states_eq (d : ups) :
  d <> [] ->
  bagged_states d =
  bag_map Funpack_dict_to_bag (List.map snd d)
    [("keys", VTuple (List.map (fun kv => VEdge (fst kv)) d))].
Proof. intros Hd. unfold bagged_states. now rewrite py_zip_items. Qed.

Lemma bag_map_inv (f : func) (args : list value) (kwargs : kwargs_t) (b : value) :
  bag_map f args kwargs = Ok b -> b = VBagMap f args kwargs.
Proof.
  unfold bag_map.
  destruct (existsb is_bag args || existsb (fun kv => is_bag (snd kv)) kwargs);
    intros E; inversion E; reflexivity.
Qed.

End UnpackFacts.

(** ** Forcing the bags that map builds *)

Section BagFacts.
Context {W : Type}.
Variable call : string -> list value -> kwargs_t -> W -> result value * W.

Lemma zip_len_app_same (ss : list spread) (x : value) :
  zip_len (ss ++ [Same x]) = zip_len ss.
Proof.
  induction ss as [|[xs|y] ss IH]; simpl; [reflexivity| |exact IH].
  now rewrite IH.
Qed.

Lemma map_seq_nth {B : Type} (g : value -> B) (xs : list value) :
  List.map (fun i => g (nth i xs VNone)) (seq 0 (length xs)) = List.map g xs.
Proof.
  induction xs as [|x xs IH]; [reflexivity|].
  simpl. f_equal. rewrite <- seq_shift, List.map_map. exact IH.
Qed.

Lemma mapM_map {A B C : Type} (g : A -> B) (f : B -> M (W := W) C) xs w :
  mapM f (List.map g xs) w = mapM (fun x => f (g x)) xs w.
Proof.
  revert w. induction xs as [|x xs IH]; intros w; [reflexivity|].
  simpl List.map. rewrite !mapM_cons. apply bind_ext. intros y w1.
  unfold bind. now rewrite IH.
Qed.

Lemma leftover_app_same (n : nat) (st : bool) (ss : list spread) (x : value) :
  leftover n st (ss ++ [Same x]) = leftover n st ss.
Proof.
  revert st. induction ss as [|[xs|y] ss IH]; intros st; simpl;
    [reflexivity| |apply IH].
  destruct st; [now rewrite IH|].
  destruct (length xs =? n)%nat; now rewrite IH.
Qed.

Lemma leftover_single (xs : list value) :
  leftover (length xs) false [Each xs] = false.
Proof. simpl. now rewrite Nat.eqb_refl. Qed.

(** Forcing a mapped bag: the arguments are spread, then [map_chunk]
    runs. *)
Lemma traverse_bag_map (f : func) (args : list value) (kwargs : kwargs_t) :
  traverse call (VBagMap f args kwargs)
  = bind (mapM (spread_arg (traverse call)) args)
      (fun args' =>
         bind (mapM (fun kv : string * value =>
                       let '(k0, a0) := kv in
                       bind (spread_arg (traverse call) a0)
                            (fun s => ret (k0, s))) kwargs)
           (fun kwargs' => map_chunk call f args' kwargs')).
Proof. reflexivity. Qed.

(** The bag [bagged_states], forced: once the values of the dictionary
    are spread, and unless a bag is left with an element, element [i] is
    the dictionary that holds, under every key, what the value at that key
    gives at [i]. *)
Lemma traverse_bagged (values keys : list value) w :
  traverse call (VBagMap Funpack_dict_to_bag values [("keys", VTuple keys)]) w
  = bind (mapM (spread_arg (traverse call)) values)
      (fun args' =>
         if leftover (default 0%nat (zip_len args')) false args'
         then raise NotIdenticallyPartitioned
         else ret (VList (List.map
                (fun i => VDict (zip keys (List.map (spread_at i) args')))
                (seq 0 (default 0%nat (zip_len args')))))) w.
Proof.
  rewrite traverse_bag_map.
  apply bind_ext. intros args' w1.
  erewrite bind_ok by reflexivity.
  unfold map_chunk. simpl List.map.
  rewrite zip_len_app_same, leftover_app_same.
  erewrite bind_ok; [reflexivity|].
  apply mapM_pure, Forall_forall. intros i _ w2. reflexivity.
Qed.

(** An argument that is no bag is repeated: as it is or, when it is a
    Delayed, as the result of forcing it. *)
Lemma spread_arg_plain (v : value) (s : spread) w w' :
  is_bag v = false ->
  spread_arg (traverse call) v w = (Ok s, w') ->
  exists r, s = Same r /\ (is_delayed v = false -> r = v).
Proof.
  intros Hb E. destruct v; try discriminate Hb;
    try (inversion E; subst; eexists; split; [reflexivity | done]).
  unfold spread_arg in E. apply bind_inv_ok in E as (r & w1 & _ & E).
  inversion E; subst. eexists; split; [reflexivity | discriminate].
Qed.

Lemma assoc_edge_spread (d : ups) :
  forall (ss : list spread),
    NoDup d.*1 ->
    Forall2 (fun x s => exists wi wi',
                 spread_arg (traverse call) x wi = (Ok s, wi'))
            (List.map snd d) ss ->
    forall e v, (e, v) ∈ d -> is_bag v = false ->
    exists r, (is_delayed v = false -> r = v) /\
      forall i, assoc_edge e (zip (List.map (fun kv => VEdge (fst kv)) d)
                                  (List.map (spread_at i) ss)) = Some r.
Proof.
  induction d as [|[k x] d IH]; intros ss ND F e v Hin Hb.
  - now apply elem_of_nil in Hin.
  - simpl in F. inversion F as [|? s ? ss' (wi & wi' & Hs) F']; subst.
    rewrite fmap_cons in ND. apply NoDup_cons in ND as [Hk ND].
    apply elem_of_cons in Hin as [Heq|Hin].
    + inversion Heq; subst k x.
      destruct (spread_arg_plain _ _ _ _ Hb Hs) as (r & -> & Hr).
      exists r. split; [exact Hr|]. intros i. simpl.
      now rewrite bool_decide_eq_true_2.
    + destruct (IH ss' ND F' e v Hin Hb) as (r & Hr & Hall).
      exists r. split; [exact Hr|]. intros i. simpl.
      rewrite bool_decide_eq_false_2; [apply Hall|].
      intros ->. apply Hk. apply list_elem_of_fmap. now exists (k, v).
Qed.

Lemma mapM_seq_nth {B : Type} (f : value -> M (W := W) B) (xs : list value) w :
  mapM (fun i => f (nth i xs VNone)) (seq 0 (length xs)) w = mapM f xs w.
Proof.
  rewrite <- (mapM_map (fun i => nth i xs VNone) f).
  now rewrite (map_seq_nth (fun x => x) xs), List.map_id.
Qed.

(** The one-partition bag made from a list of plain values holds the
    elements of the list, in order; forcing it runs nothing. *)
Lemma traverse_from_list (xs : list value) w :
  forallb resolved xs = true ->
  traverse call (VBagFromDelayed (VList xs)) w = (Ok (VList xs), w).
Proof.
  intros R.
  change (traverse call (VBagFromDelayed (VList xs)) w) with
    (bind (traverse call (VList xs))
       (fun s' => bind (apply call Fstate_to_list [s'] [])
          (fun part => match seq_items part with
                       | Some ys => ret (VList ys)
                       | None => raise (TypeError "object is not iterable")
                       end)) w).
  erewrite bind_ok by (apply traverse_resolved; exact R). reflexivity.
Qed.

(** The dictionaries per element for a single mapped Edge over a list. *)
Lemma traverse_bagged_single (e : Edge) (xs : list value) w :
  forallb resolved xs = true ->
  traverse call
    (VBagMap Funpack_dict_to_bag [VBagFromDelayed (VList xs)]
             [("keys", VTuple [VEdge e])]) w
  = (Ok (VList (List.map (fun x => VDict [(VEdge e, x)]) xs)), w).
Proof.
  intros R. rewrite traverse_bagged.
  assert (E : mapM (spread_arg (traverse call)) [VBagFromDelayed (VList xs)] w
              = (Ok [Each xs], w)).
  { rewrite mapM_cons. unfold spread_arg.
    erewrite bind_ok; [reflexivity|].
    erewrite bind_ok by (apply traverse_from_list; exact R). reflexivity. }
  erewrite bind_ok by exact E. simpl. rewrite Nat.eqb_refl. unfold ret.
  now rewrite (map_seq_nth (fun x => VDict [(VEdge e, x)]) xs).
Qed.

(** Forcing what [map] returns for a single mapped Edge over a list of
    plain values: the function is called once per element, in order. *)
Lemma traverse_mapped_single (fn : string) (e : Edge) (xs : list value) w :
  forallb resolved xs = true ->
  traverse call
    (VBagMap (Fuser fn) []
       [("upstream_states",
         VBagMap Funpack_dict_to_bag [VBagFromDelayed (VList xs)]
                 [("keys", VTuple [VEdge e])])]) w
  = bind (mapM (fun x => call fn [] [("upstream_states", VDict [(VEdge e, x)])]) xs)
      (fun rs => ret (VList rs)) w.
Proof.
  intros R.
  rewrite traverse_bag_map.
  erewrite bind_ok by reflexivity.
  erewrite bind_ok.
  2:{ rewrite mapM_cons. unfold spread_arg.
      erewrite bind_ok; [reflexivity|].
      erewrite bind_ok; [reflexivity|].
      erewrite bind_ok by (apply traverse_bagged_single; exact R).
      reflexivity. }
  unfold map_chunk. simpl. rewrite Nat.eqb_refl. unfold bind.
  rewrite (mapM_seq_nth (fun el => call fn [] [("upstream_states", el)])
             (List.map (fun x => VDict [(VEdge e, x)]) xs)).
  now rewrite mapM_map.
Qed.

End BagFacts.

(** * The claims about wait *)

(** C1, as amended: [wait] makes four passes of [dask.compute].  Whenever
    at most four passes take the futures to a value without pending
    wrappers, [wait] returns that value, in the world the passes left;
    a fifth level of nesting stays pending. *)
Theorem wait_resolves_within_four_passes {W : Type}
    (call : string -> list value -> kwargs_t -> W -> result value * W)
    (futures : value) (timeout : option Z) (k : nat) (w : W) (v : value) (w' : W) :
  (k <= 4)%nat ->
  compute_passes call k futures w = (Ok v, w') ->
  resolved v = true ->
  wait call futures timeout w = (Ok v, w').
Proof.
  intros Hk E R. now apply (wait_of_passes call futures timeout k).
Qed.

Lemma wait_resolves_within_four_passes_witness :
  wait Demo.call (VList [submit (Fuser "nest") [VInt 3] []]) None Demo.w0
  = (Ok (VList [VInt 42]), Demo.mkWorld 4 ["nest"; "nest"; "nest"; "nest"]).
Proof.
  apply (wait_resolves_within_four_passes Demo.call _ None 4);
    [lia | reflexivity | reflexivity].
Defined.

(** C1, as stated, fails: a Future nested five levels deep comes back from
    [wait] with its innermost level still a Delayed. *)
Lemma wait_leaves_fifth_level_pending :
  wait Demo.call (VList [submit (Fuser "nest") [VInt 4] []]) None Demo.w0
  = (Ok (VList [VDelayed (Fuser "nest") [VInt 0] []]),
     Demo.mkWorld 4 ["nest"; "nest"; "nest"; "nest"])
  /\ resolved (VList [VDelayed (Fuser "nest") [VInt 0] []]) = false.
Proof. split; reflexivity. Qed.

(** C2: [wait] never looks at [timeout].  A Future that sleeps for five
    seconds, waited for with a timeout of one second, is run to its end and
    its value returned; no exception is raised. *)
Theorem wait_overruns_timeout :
  wait Demo.call (VList [submit (Fuser "sleep") [VInt 5000000] []])
       (Some 1000000) Demo.w0
  = (Ok (VList [VNone]), Demo.mkWorld 5000000 ["sleep"])
  /\ 1000000 < Demo.clock (Demo.mkWorld 5000000 ["sleep"])
  /\ forall (futures : value) (t1 t2 : option Z) (w : Demo.world),
       wait Demo.call futures t1 w = wait Demo.call futures t2 w.
Proof. repeat split. Qed.

(** C3, as amended: when the function of a Future raises, [wait] raises
    that very exception, unwrapped, in the world the function left. *)
Theorem wait_propagates_raw_exception {W : Type}
    (call : string -> list value -> kwargs_t -> W -> result value * W)
    (fn : string) (args : list value) (kwargs : kwargs_t)
    (timeout : option Z) (w : W) (e : exn) (w' : W) :
  forallb resolved args = true ->
  forallb (fun kv => resolved (snd kv)) kwargs = true ->
  call fn args kwargs w = (Err e, w') ->
  wait call (VList [submit (Fuser fn) args kwargs]) timeout w = (Err e, w').
Proof.
  intros Ra Rk E. rewrite wait_passes.
  change (compute_passes call 4 ?v) with
    (bind (traverse call v) (compute_passes call 3)).
  apply bind_err. rewrite traverse_submit by assumption.
  now apply bind_err.
Qed.

Lemma wait_propagates_raw_exception_witness :
  wait Demo.call (VList [submit (Fuser "boom") [] []]) None Demo.w0
  = (Err (ValueError "x"), Demo.mkWorld 1 ["boom"]).
Proof.
  apply (wait_propagates_raw_exception Demo.call "boom" [] [] None);
    reflexivity.
Defined.

(** C3, as stated, fails: what [wait] raises for a function that raises
    [ValueError("x")] is no TaskExecutionError with that cause. *)
Lemma wait_does_not_wrap_ValueError :
  ~ exists (msg : string) (w' : Demo.world),
      wait Demo.call (VList [submit (Fuser "boom") [] []]) None Demo.w0
      = (Err (Exn "TaskExecutionError" msg (Some (ValueError "x"))), w').
Proof.
  intros (msg & w' & E). vm_compute in E. discriminate E.
Qed.

(** C5, as amended: [wait] over a value without pending wrappers returns
    it unchanged and runs nothing.  A Future does not keep its result:
    every [wait] on it calls its function again, in the world as it then
    is, and returns what that call returns. *)
Theorem wait_idempotent_on_values_reruns_futures {W : Type}
    (call : string -> list value -> kwargs_t -> W -> result value * W) :
  (forall (v : value) (timeout : option Z) (w : W),
      resolved v = true -> wait call v timeout w = (Ok v, w))
  /\
  (forall (fn : string) (args : list value) (kwargs : kwargs_t)
          (timeout : option Z) (w w1 w2 : W) (r1 r2 : value),
      forallb resolved args = true ->
      forallb (fun kv => resolved (snd kv)) kwargs = true ->
      call fn args kwargs w = (Ok r1, w1) -> resolved r1 = true ->
      call fn args kwargs w1 = (Ok r2, w2) -> resolved r2 = true ->
      wait call (VList [submit (Fuser fn) args kwargs]) timeout w
      = (Ok (VList [r1]), w1)
      /\ wait call (VList [submit (Fuser fn) args kwargs]) timeout w1
         = (Ok (VList [r2]), w2)).
Proof.
  split.
  - intros v timeout w R.
    apply (wait_of_passes call v timeout 0); [lia|reflexivity|exact R].
  - intros fn args kwargs timeout w w1 w2 r1 r2 Ra Rk E1 R1 E2 R2.
    assert (once : forall u u' r, call fn args kwargs u = (Ok r, u') ->
             resolved r = true ->
             wait call (VList [submit (Fuser fn) args kwargs]) timeout u
             = (Ok (VList [r]), u')).
    { intros u u' r E R.
      apply (wait_of_passes call _ timeout 1); [lia| |].
      - change (compute_passes call 1 ?x)
          with (bind (traverse call x) (compute_passes call 0)).
        erewrite bind_ok; [reflexivity|].
        rewrite traverse_submit by assumption.
        erewrite bind_ok by exact E. reflexivity.
      - simpl. now rewrite R. }
    split; eauto.
Qed.

Lemma wait_idempotent_on_values_reruns_futures_witness :
  wait Demo.call (VList [VInt 42]) None Demo.w0 = (Ok (VList [VInt 42]), Demo.w0)
  /\ wait Demo.call (VList [submit (Fuser "answer") [] []]) None Demo.w0
     = (Ok (VList [VInt 42]), Demo.mkWorld 1 ["answer"])
  /\ wait Demo.call (VList [submit (Fuser "answer") [] []]) None
          (Demo.mkWorld 1 ["answer"])
     = (Ok (VList [VInt 42]), Demo.mkWorld 2 ["answer"; "answer"]).
Proof.
  destruct (wait_idempotent_on_values_reruns_futures Demo.call) as [Hv Hf].
  split; [apply Hv; reflexivity|].
  apply (Hf "answer" [] [] None); reflexivity.
Defined.

(** C5, as stated, fails: the second [wait] on the same Future runs its
    function a second time, as the trace of calls shows. *)
Lemma wait_twice_runs_fn_twice :
  wait Demo.call (VList [submit (Fuser "answer") [] []]) None Demo.w0
  = (Ok (VList [VInt 42]), Demo.mkWorld 1 ["answer"])
  /\ wait Demo.call (VList [submit (Fuser "answer") [] []]) None
          (Demo.mkWorld 1 ["answer"])
     = (Ok (VList [VInt 42]), Demo.mkWorld 2 ["answer"; "answer"])
  /\ Demo.trace (Demo.mkWorld 2 ["answer"; "answer"])
     <> Demo.trace (Demo.mkWorld 1 ["answer"]).
Proof. repeat split. discriminate. Qed.

(** * The claims about map *)

(** C4, as amended: [map] called with [upstream_states=None] fails at
    once on its [assert], with an AssertionError, and builds nothing. *)
Theorem map_none_raises_AssertionError (fn : func) (args : list value)
    (kwargs : kwargs_t) :
  map fn args None kwargs = (Err AssertionError, None).
Proof. reflexivity. Qed.

(** C4, as stated, fails: the error of [map] on [None] is no
    SubmissionError. *)
Lemma map_none_is_no_SubmissionError :
  ~ exists (e : exn) (d : option ups),
      map (Fuser "times10") [] None [] = (Err e, d)
      /\ exn_class e = "SubmissionError".
Proof. intros (e & d & E & C). inversion E; subst. discriminate C. Qed.

(** C9: [map] updates the caller's dictionary in place.  After the call,
    whether it returned or raised, every entry of a mapped Edge whose
    value was no bag holds the lazily converted bag, and every other
    entry is as it was, at its place. *)
Theorem map_updates_caller_dict (fn : func) (args : list value) (d : ups)
    (kwargs : kwargs_t) :
  NoDup d.*1 ->
  snd (map fn args (Some d) kwargs) = Some (List.map bagged_entry d).
Proof.
  intros ND. unfold map. simpl. now rewrite dict_update_needs_bagging.
Qed.

Lemma map_updates_caller_dict_witness :
  snd (map (Fuser "times10") []
         (Some [(Demo.e2, VInt 5); (Demo.e1, VList [VInt 1; VInt 2; VInt 3])]) [])
  = Some [(Demo.e2, VInt 5);
          (Demo.e1, VBagFromDelayed (VList [VInt 1; VInt 2; VInt 3]))].
Proof.
  apply (map_updates_caller_dict (Fuser "times10") []
           [(Demo.e2, VInt 5); (Demo.e1, VList [VInt 1; VInt 2; VInt 3])] []).
  apply NoDup_cons. split.
  - intros H. apply list_elem_of_singleton in H. discriminate H.
  - apply NoDup_singleton.
Defined.

(** C10: [map] called with an empty dictionary raises at call time, when
    it unpacks the zipped items into keys and values, and returns no
    bag. *)
Theorem map_empty_dict_raises (fn : func) (args : list value) (kwargs : kwargs_t) :
  map fn args (Some []) kwargs
  = (Err (ValueError "not enough values to unpack (expected 2, got 0)"), Some []).
Proof. reflexivity. Qed.

(** C7: the code at an Edge that is not mapped and whose value is
    already a bag, here the bag that an earlier [map] returned.  [map]
    hands the bag to [dask.bag.map] among the values, which zips it like
    the bag of a mapped Edge: each per-element dictionary gets one element
    of the bag under that Edge, a different one each time, and never the
    Edge's whole value. *)
Theorem map_zips_bag_under_unmapped_edge :
  mapped Demo.e2 = false
  /\ map (Fuser "times10") []
         (Some [(Demo.e1, VList [VInt 1; VInt 2; VInt 3])]) []
     = (Ok Demo.first_map,
        Some [(Demo.e1, VBagFromDelayed (VList [VInt 1; VInt 2; VInt 3]))])
  /\ map (Fuser "times10") []
         (Some [(Demo.e2, Demo.first_map);
                (Demo.e1, VList [VInt 1; VInt 2; VInt 3])]) []
     = (Ok (VBagMap (Fuser "times10") []
              [("upstream_states", Demo.zipped_bagged)]),
        Some [(Demo.e2, Demo.first_map);
              (Demo.e1, VBagFromDelayed (VList [VInt 1; VInt 2; VInt 3]))])
  /\ fst (traverse Demo.call Demo.zipped_bagged Demo.w0)
     = Ok (VList [VDict [(VEdge Demo.e2, VInt 10); (VEdge Demo.e1, VInt 1)];
                  VDict [(VEdge Demo.e2, VInt 20); (VEdge Demo.e1, VInt 2)];
                  VDict [(VEdge Demo.e2, VInt 30); (VEdge Demo.e1, VInt 3)]])
  /\ dict_get Demo.e2 (VDict [(VEdge Demo.e2, VInt 10); (VEdge Demo.e1, VInt 1)])
     <> Some Demo.first_map
  /\ dict_get Demo.e2 (VDict [(VEdge Demo.e2, VInt 10); (VEdge Demo.e1, VInt 1)])
     <> dict_get Demo.e2 (VDict [(VEdge Demo.e2, VInt 20); (VEdge Demo.e1, VInt 2)]).
Proof. repeat split; try reflexivity; vm_compute; discriminate. Qed.

(** C6: [map] over a single mapped Edge whose value is a list of plain
    values, followed by [wait] (on the bag itself, or on a list that holds
    it).  When the calls of [fn], made in the order of the list, return
    plain values, [wait] returns exactly these values in that order: as
    many as the list has elements, the one at place [i] being what [fn]
    returned for the dictionary that holds the element at place [i] under
    the Edge. *)
Theorem map_then_wait_keeps_order {W : Type}
    (call : string -> list value -> kwargs_t -> W -> result value * W)
    (fn : string) (e : Edge) (xs : list value) (timeout : option Z)
    (w : W) (rs : list value) (w' : W) :
  mapped e = true ->
  forallb resolved xs = true ->
  mapM (fun x => call fn [] [("upstream_states", VDict [(VEdge e, x)])]) xs w
  = (Ok rs, w') ->
  forallb resolved rs = true ->
  exists bag,
    map (Fuser fn) [] (Some [(e, VList xs)]) []
    = (Ok bag, Some [(e, VBagFromDelayed (VList xs))])
    /\ wait call bag timeout w = (Ok (VList rs), w')
    /\ wait call (VList [bag]) timeout w = (Ok (VList [VList rs]), w')
    /\ length rs = length xs
    /\ forall (i : nat) (x : value),
         xs !! i = Some x ->
         exists r wi wi',
           rs !! i = Some r /\
           call fn [] [("upstream_states", VDict [(VEdge e, x)])] wi = (Ok r, wi').
Proof.
  intros Hm Rx E Rr.
  exists (VBagMap (Fuser fn) []
            [("upstream_states",
              VBagMap Funpack_dict_to_bag [VBagFromDelayed (VList xs)]
                      [("keys", VTuple [VEdge e])])]).
  split; [|split; [|split; [|split]]].
  - unfold map, needs_bagging, dict_update. simpl. rewrite Hm. simpl.
    rewrite bool_decide_eq_true_2 by reflexivity. reflexivity.
  - apply (wait_of_passes call _ timeout 1); [lia| |exact Rr].
    change (compute_passes call 1 ?b)
      with (bind (traverse call b) (compute_passes call 0)).
    erewrite bind_ok; [reflexivity|].
    rewrite traverse_mapped_single by exact Rx.
    erewrite bind_ok by exact E. reflexivity.
  - apply (wait_of_passes call _ timeout 1); [lia| |simpl; now rewrite Rr].
    change (compute_passes call 1 ?b)
      with (bind (traverse call b) (compute_passes call 0)).
    erewrite bind_ok; [reflexivity|].
    rewrite traverse_singleton. erewrite bind_ok; [reflexivity|].
    rewrite traverse_mapped_single by exact Rx.
    erewrite bind_ok by exact E. reflexivity.
  - apply mapM_Forall2, Forall2_length in E. now symmetry.
  - intros i x Hi. apply mapM_Forall2 in E.
    destruct (Forall2_lookup_l _ _ _ _ _ E Hi) as (r & Hr & wi & wi' & Hc).
    eauto.
Qed.

Lemma map_then_wait_keeps_order_witness :
  exists bag,
    map (Fuser "times10") [] (Some [(Demo.e1, VList [VInt 1; VInt 2; VInt 3])]) []
    = (Ok bag, Some [(Demo.e1, VBagFromDelayed (VList [VInt 1; VInt 2; VInt 3]))])
    /\ wait Demo.call bag None Demo.w0
       = (Ok (VList [VInt 10; VInt 20; VInt 30]),
          Demo.mkWorld 3 ["times10"; "times10"; "times10"])
    /\ wait Demo.call (VList [bag]) None Demo.w0
       = (Ok (VList [VList [VInt 10; VInt 20; VInt 30]]),
          Demo.mkWorld 3 ["times10"; "times10"; "times10"])
    /\ length [VInt 10; VInt 20; VInt 30] = length [VInt 1; VInt 2; VInt 3]
    /\ forall (i : nat) (x : value),
         [VInt 1; VInt 2; VInt 3] !! i = Some x ->
         exists r wi wi',
           [VInt 10; VInt 20; VInt 30] !! i = Some r /\
           Demo.call "times10" []
             [("upstream_states", VDict [(VEdge Demo.e1, x)])] wi = (Ok r, wi').
Proof.
  apply (map_then_wait_keeps_order Demo.call "times10" Demo.e1
           [VInt 1; VInt 2; VInt 3] None Demo.w0);
    reflexivity.
Defined.

(** * The claim about start *)

(** Outside the scheduler setting, [start] leaves the configuration as
    the body left it. *)
Lemma start_leaves_other_settings {A : Type}
    (body : gmap string value -> result A * gmap string value)
    (config : gmap string value) (key : string) :
  key <> "scheduler" ->
  snd (start body config) !! key
  = snd (body (<["scheduler" := VStr "synchronous"]> config)) !! key.
Proof.
  intros Hk. unfold start, config_set, config_exit.
  destruct (body (<["scheduler" := VStr "synchronous"]> config)) as [r cfg'].
  simpl. destruct (config !! "scheduler") as [v|].
  - now rewrite lookup_insert_ne.
  - now rewrite lookup_delete_ne.
Qed.

(** C8: the scope of [start].  The body runs with the synchronous
    scheduler set, and what it returns or raises is what the scope returns
    or raises; on either path the scheduler setting is, after the scope,
    what it was before [start]; and when the body leaves the configuration
    alone, the whole configuration is what it was before [start]. *)
Theorem start_restores_scheduler {A : Type}
    (body : gmap string value -> result A * gmap string value)
    (config : gmap string value) :
  fst (start body config)
  = fst (body (<["scheduler" := VStr "synchronous"]> config))
  /\ snd (start body config) !! "scheduler" = config !! "scheduler"
  /\ (snd (body (<["scheduler" := VStr "synchronous"]> config))
      = <["scheduler" := VStr "synchronous"]> config ->
      snd (start body config) = config).
Proof.
  unfold start, config_set, config_exit.
  destruct (body (<["scheduler" := VStr "synchronous"]> config)) as [r cfg'].
  simpl. split; [reflexivity|].
  destruct (config !! "scheduler") as [v|] eqn:Hold; split.
  - apply lookup_insert_eq.
  - intros ->. rewrite insert_insert_eq. now apply insert_id.
  - apply lookup_delete_eq.
  - intros ->. rewrite delete_insert_eq. now apply delete_id.
Qed.

(** An exception that leaves the scope: the scheduler that was set before
    [start] is back in place and the exception reaches the caller. *)
Example start_restores_on_exception :
  start (A := value)
    (fun cfg => (Err (ValueError "x"), <["other" := VInt 1]> cfg))
    {["scheduler" := VStr "threads"]}
  = (Err (ValueError "x"),
     <["scheduler" := VStr "threads"]>
       (<["other" := VInt 1]>
          (<["scheduler" := VStr "synchronous"]>
             {["scheduler" := VStr "threads"]}))).
Proof. reflexivity. Qed.

(** * Further properties of map *)

Section MapFacts.

Lemma bagged_entry_is_bag (kv : Edge * value) :
  is_bag (snd (bagged_entry kv)) = mapped (fst kv) || is_bag (snd kv).
Proof.
  destruct kv as [e v]. simpl.
  destruct (mapped e), (is_bag v) eqn:Hb; simpl; try reflexivity; exact Hb.
Qed.

Lemma bagged_entry_idem (kv : Edge * value) :
  bagged_entry (bagged_entry kv) = bagged_entry kv.
Proof.
  destruct kv as [e v]. simpl.
  destruct (mapped e), (is_bag v) eqn:Hb; simpl; rewrite ?Hb; reflexivity.
Qed.

Lemma bagged_entry_plain (d : ups) :
  forallb (fun kv => negb (mapped (fst kv)) && negb (is_bag (snd kv))) d = true ->
  List.map bagged_entry d = d /\ existsb is_bag (List.map snd d) = false.
Proof.
  induction d as [|[e v] d IH]; simpl; intros H; [done|].
  apply andb_true_iff in H as [H Hd]. apply andb_true_iff in H as [He Hv].
  destruct (IH Hd) as [-> ->].
  apply negb_true_iff in He, Hv. now rewrite He, Hv.
Qed.

Lemma bagged_entry_some_bag (d : ups) :
  existsb (fun kv => mapped (fst kv) || is_bag (snd kv)) d = true ->
  existsb is_bag (List.map snd (List.map bagged_entry d)) = true.
Proof.
  induction d as [|kv d IH]; simpl; intros H; [discriminate|].
  rewrite bagged_entry_is_bag. apply orb_true_iff in H as [->|H]; [reflexivity|].
  rewrite (IH H). apply orb_true_r.
Qed.

Lemma bagged_entry_edges (d : ups) :
  List.map (fun kv => VEdge (fst kv)) (List.map bagged_entry d)
  = List.map (fun kv => VEdge (fst kv)) d.
Proof.
  rewrite List.map_map. apply List.map_ext. now intros [e v].
Qed.

Lemma map_dict_after (fn : func) (args : list value) (d : ups)
    (kwargs : kwargs_t) :
  NoDup d.*1 ->
  snd (map fn args (Some d) kwargs) = Some (List.map bagged_entry d).
Proof.
  intros ND. unfold map. simpl. now rewrite dict_update_needs_bagging.
Qed.

Lemma map_eq_bag (fn : func) (args : list value) (d : ups) (kwargs : kwargs_t) :
  NoDup d.*1 ->
  existsb (fun kv => mapped (fst kv) || is_bag (snd kv)) d = true ->
  map fn args (Some d) kwargs
  = (Ok (VBagMap fn args
           (("upstream_states",
             VBagMap Funpack_dict_to_bag
               (List.map snd (List.map bagged_entry d))
               [("keys", VTuple (List.map (fun kv => VEdge (fst kv)) d))])
            :: kwargs)),
     Some (List.map bagged_entry d)).
Proof.
  intros ND Hsome. unfold map.
  rewrite dict_update_needs_bagging by exact ND.
  assert (Hne : List.map bagged_entry d <> []).
  { destruct d; [discriminate Hsome | discriminate]. }
  rewrite bagged_states_eq by exact Hne.
  unfold bag_map at 1. rewrite (bagged_entry_some_bag d Hsome). simpl.
  unfold bag_map. simpl. rewrite orb_true_r.
  now rewrite bagged_entry_edges.
Qed.

End MapFacts.

(** X1: a dictionary that is not empty, in which no Edge is mapped and no
    value is a bag, makes [map] raise at call time the ValueError with
    which [dask.bag.map] refuses a call without bags; the dictionary is
    left as it was. *)
Theorem map_without_mapped_edge_raises (fn : func) (args : list value)
    (d : ups) (kwargs : kwargs_t) :
  NoDup d.*1 -> d <> [] ->
  forallb (fun kv => negb (mapped (fst kv)) && negb (is_bag (snd kv))) d = true ->
  map fn args (Some d) kwargs
  = (Err (ValueError "At least one argument must be a Bag."), Some d).
Proof.
  intros ND Hne Hplain. unfold map.
  rewrite dict_update_needs_bagging by exact ND.
  destruct (bagged_entry_plain d Hplain) as [-> Hnb].
  rewrite bagged_states_eq by exact Hne.
  unfold bag_map. simpl. now rewrite Hnb.
Qed.

Lemma map_without_mapped_edge_raises_witness :
  map (Fuser "times10") [VInt 7] (Some [(Demo.e2, VInt 1); (Demo.e3, VStr "s")]) []
  = (Err (ValueError "At least one argument must be a Bag."),
     Some [(Demo.e2, VInt 1); (Demo.e3, VStr "s")]).
Proof.
  apply (map_without_mapped_edge_raises (Fuser "times10") [VInt 7]
           [(Demo.e2, VInt 1); (Demo.e3, VStr "s")] []).
  - apply NoDup_cons. split.
    + intros H. apply list_elem_of_singleton in H. discriminate H.
    + apply NoDup_singleton.
  - discriminate.
  - reflexivity.
Defined.

(** X2: as soon as one Edge of the dictionary is mapped or one value is a
    bag, [map] returns, and what it returns is the lazy bag that maps [fn]
    over [args], the zipped dictionaries under the keyword
    [upstream_states], and [kwargs]: the zipped dictionaries take the keys
    of the dictionary in their order and its values after the in-place
    update. *)
Theorem map_returns_bag (fn : func) (args : list value) (d : ups)
    (kwargs : kwargs_t) :
  NoDup d.*1 ->
  existsb (fun kv => mapped (fst kv) || is_bag (snd kv)) d = true ->
  map fn args (Some d) kwargs
  = (Ok (VBagMap fn args
           (("upstream_states",
             VBagMap Funpack_dict_to_bag
               (List.map snd (List.map bagged_entry d))
               [("keys", VTuple (List.map (fun kv => VEdge (fst kv)) d))])
            :: kwargs)),
     Some (List.map bagged_entry d)).
Proof.
  intros ND Hsome. now apply map_eq_bag.
Qed.

Lemma map_returns_bag_witness :
  map (Fuser "times10") [VInt 7]
      (Some [(Demo.e2, VInt 5); (Demo.e1, VList [VInt 1; VInt 2])]) []
  = (Ok (VBagMap (Fuser "times10") [VInt 7]
           [("upstream_states",
             VBagMap Funpack_dict_to_bag
               [VInt 5; VBagFromDelayed (VList [VInt 1; VInt 2])]
               [("keys", VTuple [VEdge Demo.e2; VEdge Demo.e1])])]),
     Some [(Demo.e2, VInt 5);
           (Demo.e1, VBagFromDelayed (VList [VInt 1; VInt 2]))]).
Proof.
  apply (map_returns_bag (Fuser "times10") [VInt 7]
           [(Demo.e2, VInt 5); (Demo.e1, VList [VInt 1; VInt 2])] []).
  - apply NoDup_cons. split.
    + intros H. apply list_elem_of_singleton in H. discriminate H.
    + apply NoDup_singleton.
  - reflexivity.
Defined.

(** X3: the in-place update is done once and for all: a second call of
    [map] on the dictionary that a first call left behind, with whatever
    function and arguments, leaves that dictionary as it is. *)
Theorem map_twice_leaves_dict (fn1 fn2 : func) (args1 args2 : list value)
    (d : ups) (kwargs1 kwargs2 : kwargs_t) :
  NoDup d.*1 ->
  snd (map fn2 args2 (snd (map fn1 args1 (Some d) kwargs1)) kwargs2)
  = snd (map fn1 args1 (Some d) kwargs1).
Proof.
  intros ND. rewrite (map_dict_after fn1 args1 d kwargs1 ND).
  rewrite map_dict_after by (now rewrite bagged_entry_keys).
  rewrite List.map_map. f_equal. apply List.map_ext, bagged_entry_idem.
Qed.

Lemma map_twice_leaves_dict_witness :
  snd (map (Fuser "answer") []
         (snd (map (Fuser "times10") []
                 (Some [(Demo.e2, VInt 5); (Demo.e1, VList [VInt 1; VInt 2])]) []))
         [])
  = snd (map (Fuser "times10") []
           (Some [(Demo.e2, VInt 5); (Demo.e1, VList [VInt 1; VInt 2])]) []).
Proof.
  apply (map_twice_leaves_dict (Fuser "times10") (Fuser "answer") [] []
           [(Demo.e2, VInt 5); (Demo.e1, VList [VInt 1; VInt 2])] [] []).
  apply NoDup_cons. split.
  - intros H. apply list_elem_of_singleton in H. discriminate H.
  - apply NoDup_singleton.
Defined.

(** X4: whatever [map] does next, the dictionary it leaves behind has the
    keys it had, in the same order, and holds a bag under every mapped
    Edge. *)
Theorem map_leaves_mapped_edges_bagged (fn : func) (args : list value)
    (d d' : ups) (kwargs : kwargs_t) :
  NoDup d.*1 ->
  snd (map fn args (Some d) kwargs) = Some d' ->
  d'.*1 = d.*1 /\
  forall (e : Edge) (v : value), (e, v) ∈ d' -> mapped e = true -> is_bag v = true.
Proof.
  intros ND E. rewrite map_dict_after in E by exact ND.
  inversion E; subst d'. split; [apply bagged_entry_keys|].
  intros e v Hin Hm.
  apply list_elem_of_In, in_map_iff in Hin as (kv & Hkv & _).
  pose proof (bagged_entry_is_bag kv) as Hb. rewrite Hkv in Hb. simpl in Hb.
  rewrite Hb. destruct kv as [e0 v0]. simpl in Hkv. inversion Hkv; subst e0.
  simpl. now rewrite Hm.
Qed.

Lemma map_leaves_mapped_edges_bagged_witness :
  [(Demo.e2, VInt 5); (Demo.e1, VBagFromDelayed (VList [VInt 1; VInt 2]))].*1
  = [(Demo.e2, VInt 5); (Demo.e1, VList [VInt 1; VInt 2])].*1 /\
  forall (e : Edge) (v : value),
    (e, v) ∈ [(Demo.e2, VInt 5);
              (Demo.e1, VBagFromDelayed (VList [VInt 1; VInt 2]))] ->
    mapped e = true -> is_bag v = true.
Proof.
  apply (map_leaves_mapped_edges_bagged (Fuser "times10") []
           [(Demo.e2, VInt 5); (Demo.e1, VList [VInt 1; VInt 2])] _ []).
  - apply NoDup_cons. split.
    + intros H. apply list_elem_of_singleton in H. discriminate H.
    + apply NoDup_singleton.
  - reflexivity.
Defined.

(** * Further properties of map followed by wait *)

Section OuterFacts.
Context {W : Type}.
Variable call : string -> list value -> kwargs_t -> W -> result value * W.

Lemma mapM_ext {A B : Type} (f g : A -> M (W := W) B) xs w :
  (forall x w1, f x w1 = g x w1) -> mapM f xs w = mapM g xs w.
Proof.
  intros E. revert w. induction xs as [|x xs IH]; intros w; [reflexivity|].
  rewrite !mapM_cons. unfold bind. rewrite E.
  destruct (g x w) as [[y|e] w1]; [|reflexivity]. now rewrite IH.
Qed.

(** [mapM] stops at the first element on which the function raises. *)
Lemma mapM_app_err {A B : Type} (f : A -> M (W := W) B) pre x post w rs w1 e w2 :
  mapM f pre w = (Ok rs, w1) -> f x w1 = (Err e, w2) ->
  mapM f (pre ++ x :: post) w = (Err e, w2).
Proof.
  revert w rs. induction pre as [|p pre IH]; intros w rs Hpre Hx.
  - inversion Hpre; subst. simpl app. rewrite mapM_cons. now apply bind_err.
  - simpl app. rewrite mapM_cons in Hpre |- *.
    apply bind_inv_ok in Hpre as (y & wy & Hy & Hpre).
    apply bind_inv_ok in Hpre as (ys & wys & Hys & Hret).
    inversion Hret; subst.
    erewrite bind_ok by exact Hy. apply bind_err. eapply IH; eauto.
Qed.

Lemma spread_plain_arg (a : value) w :
  negb (is_bag a) && negb (is_delayed a) = true ->
  spread_arg (traverse call) a w = (Ok (Same a), w).
Proof. destruct a; simpl; intros H; try discriminate H; reflexivity. Qed.

Lemma spread_plain_args (args : list value) w :
  forallb (fun a => negb (is_bag a) && negb (is_delayed a)) args = true ->
  mapM (spread_arg (traverse call)) args w = (Ok (List.map Same args), w).
Proof.
  intros H. apply mapM_pure, Forall_forall. intros a Ha w1.
  rewrite forallb_forall in H. apply spread_plain_arg, H, list_elem_of_In, Ha.
Qed.

Lemma spread_plain_kwargs (kwargs : kwargs_t) w :
  forallb (fun kv => negb (is_bag (snd kv)) && negb (is_delayed (snd kv)))
          kwargs = true ->
  mapM (fun kv : string * value =>
          let '(k, a) := kv in
          bind (spread_arg (traverse call) a) (fun s => ret (k, s))) kwargs w
  = (Ok (List.map (fun kv => (fst kv, Same (snd kv))) kwargs), w).
Proof.
  intros H. apply mapM_pure, Forall_forall. intros [k a] Ha w1.
  rewrite forallb_forall in H. apply list_elem_of_In, H in Ha. simpl in Ha.
  erewrite bind_ok by (apply spread_plain_arg, Ha). reflexivity.
Qed.

Lemma zip_len_Same (l : list value) (ss : list spread) :
  zip_len (List.map Same l ++ ss) = zip_len ss.
Proof. induction l as [|x l IH]; [reflexivity | exact IH]. Qed.

Lemma zip_len_Each_Same (els l : list value) :
  zip_len (Each els :: List.map Same l) = Some (length els).
Proof.
  simpl. rewrite <- (app_nil_r (List.map Same l)), zip_len_Same. reflexivity.
Qed.

Lemma zip_len_kw_None (kwargs : kwargs_t) :
  zip_len (List.map snd
             (List.map (fun kv : string * value => (fst kv, Same (snd kv)))
                       kwargs)) = None.
Proof. induction kwargs as [|kv kwargs IH]; [reflexivity | exact IH]. Qed.

Lemma spread_at_Same (i : nat) (l : list value) :
  List.map (spread_at i) (List.map Same l) = l.
Proof. rewrite List.map_map. apply List.map_id. Qed.

Lemma spread_at_kw_Same (i : nat) (kwargs : kwargs_t) :
  List.map (fun ks : string * spread => (fst ks, spread_at i (snd ks)))
           (List.map (fun kv : string * value => (fst kv, Same (snd kv))) kwargs)
  = kwargs.
Proof.
  rewrite List.map_map. simpl. rewrite <- (List.map_id kwargs) at 2.
  apply List.map_ext. now intros [k a].
Qed.

Lemma leftover_Same (n : nat) (st : bool) (l : list value) (ss : list spread) :
  leftover n st (List.map Same l ++ ss) = leftover n st ss.
Proof. induction l as [|x l IH]; [reflexivity | exact IH]. Qed.

Lemma leftover_kw (n : nat) (st : bool) (kwargs : kwargs_t) :
  leftover n st
    (List.map snd
       (List.map (fun kv : string * value => (fst kv, Same (snd kv))) kwargs))
  = false.
Proof. induction kwargs as [|kv kwargs IH]; [reflexivity | exact IH]. Qed.

(** One bag among arguments that are repeated: as many calls as the bag
    has elements, and nothing is left. *)
Lemma outer_iters (args : list value) (kwargs : kwargs_t) (els : list value) :
  default 0%nat
    (zip_len (List.map Same args ++
              List.map snd
                (("upstream_states", Each els)
                 :: List.map (fun kv : string * value => (fst kv, Same (snd kv)))
                             kwargs)))
  = length els
  /\ leftover (length els) false
       (List.map Same args ++
        List.map snd
          (("upstream_states", Each els)
           :: List.map (fun kv : string * value => (fst kv, Same (snd kv)))
                       kwargs))
     = false.
Proof.
  rewrite zip_len_Same, leftover_Same. simpl.
  rewrite zip_len_kw_None, Nat.eqb_refl, leftover_kw. split; reflexivity.
Qed.

(** Forcing the bag that [map] returns, when the extra arguments are
    neither bags nor Delayed objects: once the zipped dictionaries [els]
    are there, the function is called once per dictionary, in order, on
    the same extra arguments. *)
Lemma traverse_outer (fn : string) (args : list value) (kwargs : kwargs_t)
    (b : value) (els : list value) w w1 :
  is_bag b = true ->
  forallb (fun a => negb (is_bag a) && negb (is_delayed a)) args = true ->
  forallb (fun kv => negb (is_bag (snd kv)) && negb (is_delayed (snd kv)))
          kwargs = true ->
  traverse call b w = (Ok (VList els), w1) ->
  traverse call (VBagMap (Fuser fn) args (("upstream_states", b) :: kwargs)) w
  = bind (mapM (fun el => call fn args (("upstream_states", el) :: kwargs)) els)
      (fun rs => ret (VList rs)) w1.
Proof.
  intros Hb Ha Hk Tb.
  rewrite traverse_bag_map.
  erewrite bind_ok by (apply spread_plain_args, Ha).
  erewrite bind_ok.
  2:{ rewrite mapM_cons. erewrite bind_ok.
      2:{ erewrite bind_ok; [reflexivity|].
          destruct b; try discriminate Hb; unfold spread_arg;
            (erewrite bind_ok by exact Tb); reflexivity. }
      erewrite bind_ok by (apply spread_plain_kwargs, Hk). reflexivity. }
  unfold map_chunk.
  change (default [] (seq_items (VList els))) with els.
  destruct (outer_iters args kwargs els) as [Hz Hl].
  rewrite Hz, Hl.
  unfold bind.
  rewrite (mapM_ext _ (fun i => (fun el => call fn args
             (("upstream_states", el) :: kwargs)) (nth i els VNone))).
  - now rewrite (mapM_seq_nth
                   (fun el => call fn args (("upstream_states", el) :: kwargs))
                   els).
  - intros i w2. simpl. now rewrite spread_at_Same, spread_at_kw_Same.
Qed.

Lemma mapM_ext_Forall {A B : Type} (f g : A -> M (W := W) B) xs :
  Forall (fun x => forall w1, f x w1 = g x w1) xs ->
  forall w, mapM f xs w = mapM g xs w.
Proof.
  induction 1 as [|x xs Hx _ IH]; intros w; [reflexivity|].
  rewrite !mapM_cons. unfold bind. rewrite Hx.
  destruct (g x w) as [[y|e] w1]; [|reflexivity]. now rewrite IH.
Qed.

Lemma map_seq_zip {B : Type} (g : value -> value -> B) (xs ys : list value) :
  List.map (fun i => g (nth i xs VNone) (nth i ys VNone))
           (seq 0 (Nat.min (length xs) (length ys)))
  = List.map (fun xy => g (fst xy) (snd xy)) (zip xs ys).
Proof.
  revert ys. induction xs as [|x xs IH]; intros [|y ys]; try reflexivity.
  simpl. f_equal. rewrite <- seq_shift, List.map_map. apply IH.
Qed.

(** An exception in one of the first four passes is what [wait] raises. *)
Lemma wait_of_passes_err futures timeout k w e w' :
  (k <= 4)%nat ->
  compute_passes call k futures w = (Err e, w') ->
  wait call futures timeout w = (Err e, w').
Proof.
  intros Hk E. rewrite wait_passes.
  replace 4%nat with (k + (4 - k))%nat by lia.
  rewrite compute_passes_add. now apply bind_err.
Qed.

Lemma compute_passes_one (v : value) w :
  compute_passes call 1 v w = traverse call v w.
Proof.
  simpl. unfold bind, ret. destruct (traverse call v w) as [[r|e] w1]; reflexivity.
Qed.

Lemma leftover_two (xs ys : list value) :
  leftover (Nat.min (length xs) (length ys)) false [Each xs; Each ys]
  = negb ((length xs =? length ys)%nat || (length xs =? S (length ys))%nat).
Proof.
  simpl.
  destruct (Nat.eqb_spec (length xs) (Nat.min (length xs) (length ys))) as [E|E];
    destruct (Nat.eqb_spec (length xs) (length ys)) as [E1|E1];
    destruct (Nat.eqb_spec (length xs) (S (length ys))) as [E2|E2];
    destruct (Nat.eqb_spec (length ys) (Nat.min (length xs) (length ys))) as [E3|E3];
    simpl; rewrite ?orb_false_r;
    try (exfalso; lia);
    try (apply Nat.ltb_lt; lia); try (apply Nat.ltb_ge; lia).
Qed.

(** The zipped dictionaries of two mapped Edges over lists of plain
    values: one per pair of [zip], when the lists are of one length or
    the first has one element more; otherwise [map_chunk] raises. *)
Lemma traverse_bagged_two (ea eb : Edge) (xs ys : list value) w :
  forallb resolved xs = true -> forallb resolved ys = true ->
  traverse call
    (VBagMap Funpack_dict_to_bag
       [VBagFromDelayed (VList xs); VBagFromDelayed (VList ys)]
       [("keys", VTuple [VEdge ea; VEdge eb])]) w
  = (if (length xs =? length ys)%nat || (length xs =? S (length ys))%nat
     then Ok (VList (List.map
                       (fun xy => VDict [(VEdge ea, fst xy); (VEdge eb, snd xy)])
                       (zip xs ys)))
     else Err NotIdenticallyPartitioned, w).
Proof.
  intros Rx Ry. rewrite traverse_bagged.
  assert (E : mapM (spread_arg (traverse call))
                [VBagFromDelayed (VList xs); VBagFromDelayed (VList ys)] w
              = (Ok [Each xs; Each ys], w)).
  { rewrite !mapM_cons. unfold spread_arg.
    erewrite bind_ok.
    2:{ erewrite bind_ok by (apply traverse_from_list; exact Rx). reflexivity. }
    erewrite bind_ok; [reflexivity|].
    erewrite bind_ok; [reflexivity|].
    erewrite bind_ok by (apply traverse_from_list; exact Ry). reflexivity. }
  erewrite bind_ok by exact E.
  change (default 0%nat (zip_len [Each xs; Each ys]))
    with (Nat.min (length xs) (length ys)).
  rewrite leftover_two.
  destruct ((length xs =? length ys)%nat || (length xs =? S (length ys))%nat);
    [|reflexivity].
  unfold ret. simpl.
  now rewrite (map_seq_zip
                 (fun x y => VDict [(VEdge ea, x); (VEdge eb, y)]) xs ys).
Qed.

(** The zipped dictionaries of a mapped Edge over a list of plain values
    and an Edge whose value is neither a bag nor a Delayed. *)
Lemma traverse_bagged_with_plain (e e' : Edge) (xs : list value) (v : value) w :
  forallb resolved xs = true ->
  negb (is_bag v) && negb (is_delayed v) = true ->
  traverse call
    (VBagMap Funpack_dict_to_bag [VBagFromDelayed (VList xs); v]
       [("keys", VTuple [VEdge e; VEdge e'])]) w
  = (Ok (VList (List.map (fun x => VDict [(VEdge e, x); (VEdge e', v)]) xs)), w).
Proof.
  intros Rx Hv. rewrite traverse_bagged.
  assert (E : mapM (spread_arg (traverse call)) [VBagFromDelayed (VList xs); v] w
              = (Ok [Each xs; Same v], w)).
  { rewrite !mapM_cons.
    erewrite bind_ok.
    2:{ unfold spread_arg.
        erewrite bind_ok by (apply traverse_from_list; exact Rx). reflexivity. }
    erewrite bind_ok; [reflexivity|].
    erewrite bind_ok by (apply spread_plain_arg; exact Hv). reflexivity. }
  erewrite bind_ok by exact E. simpl. rewrite Nat.eqb_refl. unfold ret.
  now rewrite (map_seq_nth (fun x => VDict [(VEdge e, x); (VEdge e', v)]) xs).
Qed.

(** The zipped dictionaries of a single Edge whose value is a bag: one
    per element of the bag, in order. *)
Lemma traverse_bagged_bag (e : Edge) (b : value) (ys : list value) w w1 :
  is_bag b = true ->
  traverse call b w = (Ok (VList ys), w1) ->
  traverse call (VBagMap Funpack_dict_to_bag [b] [("keys", VTuple [VEdge e])]) w
  = (Ok (VList (List.map (fun y => VDict [(VEdge e, y)]) ys)), w1).
Proof.
  intros Hb Tb. rewrite traverse_bagged.
  assert (E : mapM (spread_arg (traverse call)) [b] w = (Ok [Each ys], w1)).
  { rewrite mapM_cons. erewrite bind_ok; [reflexivity|].
    destruct b; try discriminate Hb; unfold spread_arg;
      (erewrite bind_ok by exact Tb); reflexivity. }
  erewrite bind_ok by exact E. simpl. rewrite Nat.eqb_refl. unfold ret.
  now rewrite (map_seq_nth (fun y => VDict [(VEdge e, y)]) ys).
Qed.

(** The one-partition bag made from a Future with plain arguments whose
    function returns a list: the elements of that list, as returned. *)
Lemma traverse_from_submitted (f : string) (args : list value) (kwargs : kwargs_t)
    (xs : list value) w w1 :
  forallb resolved args = true ->
  forallb (fun kv => resolved (snd kv)) kwargs = true ->
  call f args kwargs w = (Ok (VList xs), w1) ->
  traverse call (VBagFromDelayed (VDelayed (Fuser f) args kwargs)) w
  = (Ok (VList xs), w1).
Proof.
  intros Ra Rk E.
  change (traverse call (VBagFromDelayed ?v) w) with
    (bind (traverse call v)
       (fun s' => bind (apply call Fstate_to_list [s'] [])
          (fun part => match seq_items part with
                       | Some ys => ret (VList ys)
                       | None => raise (TypeError "object is not iterable")
                       end)) w).
  erewrite bind_ok by (rewrite traverse_delayed by assumption; exact E).
  reflexivity.
Qed.

End OuterFacts.

(** X5: positional and keyword arguments given to [map] that are neither
    bags nor Delayed objects reach every call of [fn] as they are.  For a
    single mapped Edge over a list of plain values, [wait] returns what
    the calls of [fn] on these arguments and on the per-element dictionary
    return, in the order of the list. *)
Theorem map_then_wait_passes_extra_arguments {W : Type}
    (call : string -> list value -> kwargs_t -> W -> result value * W)
    (fn : string) (e : Edge) (xs args : list value) (kwargs : kwargs_t)
    (timeout : option Z) (w : W) (rs : list value) (w' : W) :
  mapped e = true ->
  forallb resolved xs = true ->
  forallb (fun a => negb (is_bag a) && negb (is_delayed a)) args = true ->
  forallb (fun kv => negb (is_bag (snd kv)) && negb (is_delayed (snd kv)))
          kwargs = true ->
  mapM (fun x => call fn args
                   (("upstream_states", VDict [(VEdge e, x)]) :: kwargs)) xs w
  = (Ok rs, w') ->
  forallb resolved rs = true ->
  exists bag,
    map (Fuser fn) args (Some [(e, VList xs)]) kwargs
    = (Ok bag, Some [(e, VBagFromDelayed (VList xs))])
    /\ wait call bag timeout w = (Ok (VList rs), w').
Proof.
  intros Hm Rx Ha Hk E Rr.
  exists (VBagMap (Fuser fn) args
            (("upstream_states",
              VBagMap Funpack_dict_to_bag [VBagFromDelayed (VList xs)]
                      [("keys", VTuple [VEdge e])]) :: kwargs)).
  split.
  - rewrite map_eq_bag.
    + simpl. now rewrite Hm.
    + apply NoDup_singleton.
    + simpl. now rewrite Hm.
  - apply (wait_of_passes call _ timeout 1); [lia| |exact Rr].
    rewrite compute_passes_one.
    erewrite traverse_outer;
      [|reflexivity|exact Ha|exact Hk|apply traverse_bagged_single; exact Rx].
    unfold bind. rewrite mapM_map. now rewrite E.
Qed.

Lemma map_then_wait_passes_extra_arguments_witness :
  exists bag,
    map (Fuser "times10") [VInt 7; VList [VStr "s"]]
        (Some [(Demo.e1, VList [VInt 1; VInt 2])]) []
    = (Ok bag, Some [(Demo.e1, VBagFromDelayed (VList [VInt 1; VInt 2]))])
    /\ wait Demo.call bag None Demo.w0
       = (Ok (VList [VInt 10; VInt 20]), Demo.mkWorld 2 ["times10"; "times10"]).
Proof.
  apply (map_then_wait_passes_extra_arguments Demo.call "times10" Demo.e1
           [VInt 1; VInt 2] [VInt 7; VList [VStr "s"]] [] None Demo.w0);
    reflexivity.
Defined.

(** X6: the forcing is fail-fast.  When [fn] raises on an element of the
    mapped list, [wait] raises that exception, in the world which that
    call left: the elements after it are never handed to [fn]. *)
Theorem map_then_wait_stops_at_first_failure {W : Type}
    (call : string -> list value -> kwargs_t -> W -> result value * W)
    (fn : string) (e : Edge) (pre : list value) (x : value) (post : list value)
    (timeout : option Z) (w : W) (rs : list value) (w1 : W) (err : exn) (w2 : W) :
  mapped e = true ->
  forallb resolved (pre ++ x :: post) = true ->
  mapM (fun y => call fn [] [("upstream_states", VDict [(VEdge e, y)])]) pre w
  = (Ok rs, w1) ->
  call fn [] [("upstream_states", VDict [(VEdge e, x)])] w1 = (Err err, w2) ->
  exists bag,
    map (Fuser fn) [] (Some [(e, VList (pre ++ x :: post))]) []
    = (Ok bag, Some [(e, VBagFromDelayed (VList (pre ++ x :: post)))])
    /\ wait call bag timeout w = (Err err, w2).
Proof.
  intros Hm Rx Epre Ex.
  exists (VBagMap (Fuser fn) []
            [("upstream_states",
              VBagMap Funpack_dict_to_bag
                [VBagFromDelayed (VList (pre ++ x :: post))]
                [("keys", VTuple [VEdge e])])]).
  split.
  - rewrite map_eq_bag.
    + simpl. now rewrite Hm.
    + apply NoDup_singleton.
    + simpl. now rewrite Hm.
  - apply (wait_of_passes_err call _ timeout 1); [lia|].
    rewrite compute_passes_one.
    erewrite traverse_outer;
      [|reflexivity|reflexivity|reflexivity|apply traverse_bagged_single; exact Rx].
    apply bind_err. rewrite mapM_map.
    now apply (mapM_app_err _ pre x post w rs w1).
Qed.

Lemma map_then_wait_stops_at_first_failure_witness :
  exists bag,
    map (Fuser "times10") []
        (Some [(Demo.e1, VList ([VInt 1] ++ VStr "a" :: [VInt 3]))]) []
    = (Ok bag,
       Some [(Demo.e1, VBagFromDelayed (VList ([VInt 1] ++ VStr "a" :: [VInt 3])))])
    /\ wait Demo.call bag None Demo.w0
       = (Err (TypeError "times10() needs an int under e1"),
          Demo.mkWorld 2 ["times10"; "times10"]).
Proof.
  apply (map_then_wait_stops_at_first_failure Demo.call "times10" Demo.e1
           [VInt 1] (VStr "a") [VInt 3] None Demo.w0 [VInt 10]
           (Demo.mkWorld 1 ["times10"]));
    reflexivity.
Defined.

(** X7: two mapped Edges over lists of plain values on which [fn]
    returns.  When the lists are of one length, or the first has exactly
    one element more (which [zip] takes and drops), [wait] returns the
    results of [fn] on the zipped pairs, as many as the second list has
    elements.  In every other case [wait] raises the ValueError with which
    dask's [map_chunk] refuses bags that are not identically partitioned;
    nothing is raised when [map] is called. *)
Theorem map_of_two_lists {W : Type}
    (call : string -> list value -> kwargs_t -> W -> result value * W)
    (fn : string) (ea eb : Edge) (xs ys : list value)
    (timeout : option Z) (w : W) (rs : list value) (w' : W) :
  ea <> eb -> mapped ea = true -> mapped eb = true ->
  forallb resolved xs = true -> forallb resolved ys = true ->
  mapM (fun xy => call fn []
                    [("upstream_states",
                      VDict [(VEdge ea, fst xy); (VEdge eb, snd xy)])])
       (zip xs ys) w
  = (Ok rs, w') ->
  forallb resolved rs = true ->
  exists bag,
    map (Fuser fn) [] (Some [(ea, VList xs); (eb, VList ys)]) []
    = (Ok bag, Some [(ea, VBagFromDelayed (VList xs));
                     (eb, VBagFromDelayed (VList ys))])
    /\ (length xs = length ys \/ length xs = S (length ys) ->
        wait call bag timeout w = (Ok (VList rs), w')
        /\ length rs = length ys)
    /\ (length xs <> length ys -> length xs <> S (length ys) ->
        fst (wait call bag timeout w) = Err NotIdenticallyPartitioned).
Proof.
  intros Hne Ha Hb Rx Ry E Rr.
  exists (VBagMap (Fuser fn) []
            [("upstream_states",
              VBagMap Funpack_dict_to_bag
                [VBagFromDelayed (VList xs); VBagFromDelayed (VList ys)]
                [("keys", VTuple [VEdge ea; VEdge eb])])]).
  split; [|split].
  - rewrite map_eq_bag.
    + simpl. now rewrite Ha, Hb.
    + apply NoDup_cons. split; [|apply NoDup_singleton].
      intros H. apply list_elem_of_singleton in H. contradiction.
    + simpl. now rewrite Ha.
  - intros Hlen.
    assert (Hok : (length xs =? length ys)%nat || (length xs =? S (length ys))%nat
                  = true).
    { apply orb_true_iff. destruct Hlen as [H|H]; [left|right];
        now apply Nat.eqb_eq. }
    split.
    + apply (wait_of_passes call _ timeout 1); [lia| |exact Rr].
      rewrite compute_passes_one.
      erewrite traverse_outer;
        [|reflexivity|reflexivity|reflexivity
         |rewrite traverse_bagged_two by assumption; rewrite Hok; reflexivity].
      unfold bind. rewrite mapM_map. now rewrite E.
    + apply mapM_Forall2, Forall2_length in E.
      rewrite <- E.
      transitivity (Nat.min (length xs) (length ys));
        [apply length_zip_with | lia].
  - intros H1 H2.
    assert (Hbad : (length xs =? length ys)%nat || (length xs =? S (length ys))%nat
                   = false).
    { apply orb_false_iff. split; now apply Nat.eqb_neq. }
    erewrite (wait_of_passes_err call _ timeout 1); [reflexivity|lia|].
    rewrite compute_passes_one, traverse_bag_map.
    erewrite bind_ok by reflexivity.
    apply bind_err. rewrite mapM_cons. apply bind_err.
    apply bind_err. unfold spread_arg. apply bind_err.
    rewrite traverse_bagged_two by assumption. now rewrite Hbad.
Qed.

Lemma map_of_two_lists_witness :
  (exists bag,
      map (Fuser "times10") []
          (Some [(Demo.e1, VList [VInt 1; VInt 2; VInt 3]);
                 (Demo2.e4, VList [VStr "a"; VStr "b"])]) []
      = (Ok bag, Some [(Demo.e1, VBagFromDelayed (VList [VInt 1; VInt 2; VInt 3]));
                       (Demo2.e4, VBagFromDelayed (VList [VStr "a"; VStr "b"]))])
      /\ wait Demo.call bag None Demo.w0
         = (Ok (VList [VInt 10; VInt 20]), Demo.mkWorld 2 ["times10"; "times10"]))
  /\ (exists bag,
        map (Fuser "times10") []
            (Some [(Demo.e1, VList [VInt 1; VInt 2]);
                   (Demo2.e4, VList [VStr "a"; VStr "b"; VStr "c"])]) []
        = (Ok bag, Some [(Demo.e1, VBagFromDelayed (VList [VInt 1; VInt 2]));
                         (Demo2.e4,
                          VBagFromDelayed (VList [VStr "a"; VStr "b"; VStr "c"]))])
        /\ fst (wait Demo.call bag None Demo.w0) = Err NotIdenticallyPartitioned).
Proof.
  split.
  - destruct (map_of_two_lists Demo.call "times10" Demo.e1 Demo2.e4
                [VInt 1; VInt 2; VInt 3] [VStr "a"; VStr "b"] None Demo.w0
                [VInt 10; VInt 20] (Demo.mkWorld 2 ["times10"; "times10"]))
      as (bag & Hmap & Hok & _);
      [discriminate | reflexivity | reflexivity | reflexivity | reflexivity
      | reflexivity | reflexivity |].
    exists bag. split; [exact Hmap|]. apply Hok. right. reflexivity.
  - destruct (map_of_two_lists Demo.call "times10" Demo.e1 Demo2.e4
                [VInt 1; VInt 2] [VStr "a"; VStr "b"; VStr "c"] None Demo.w0
                [VInt 10; VInt 20] (Demo.mkWorld 2 ["times10"; "times10"]))
      as (bag & Hmap & _ & Hbad);
      [discriminate | reflexivity | reflexivity | reflexivity | reflexivity
      | reflexivity | reflexivity |].
    exists bag. split; [exact Hmap|]. apply Hbad; discriminate.
Defined.

(** X13: a mapped Edge and an Edge that is not mapped together.  For a
    mapped Edge over a list of plain values and a second Edge whose value
    is neither a bag nor a Delayed, [fn] is called once per element of the
    list, each time with a dictionary that holds that element under the
    mapped Edge and the whole second value under the other; [wait] returns
    the results in the order of the list. *)
Theorem map_then_wait_broadcasts_plain_value {W : Type}
    (call : string -> list value -> kwargs_t -> W -> result value * W)
    (fn : string) (e e' : Edge) (xs : list value) (v : value)
    (timeout : option Z) (w : W) (rs : list value) (w' : W) :
  e <> e' -> mapped e = true -> mapped e' = false ->
  forallb resolved xs = true ->
  negb (is_bag v) && negb (is_delayed v) = true ->
  mapM (fun x => call fn []
                   [("upstream_states", VDict [(VEdge e, x); (VEdge e', v)])])
       xs w
  = (Ok rs, w') ->
  forallb resolved rs = true ->
  exists bag,
    map (Fuser fn) [] (Some [(e, VList xs); (e', v)]) []
    = (Ok bag, Some [(e, VBagFromDelayed (VList xs)); (e', v)])
    /\ wait call bag timeout w = (Ok (VList rs), w')
    /\ length rs = length xs.
Proof.
  intros Hne Hm Hm' Rx Hv E Rr.
  exists (VBagMap (Fuser fn) []
            [("upstream_states",
              VBagMap Funpack_dict_to_bag [VBagFromDelayed (VList xs); v]
                      [("keys", VTuple [VEdge e; VEdge e'])])]).
  split; [|split].
  - rewrite map_eq_bag.
    + simpl. now rewrite Hm, Hm'.
    + apply NoDup_cons. split; [|apply NoDup_singleton].
      intros H. apply list_elem_of_singleton in H. contradiction.
    + simpl. now rewrite Hm.
  - apply (wait_of_passes call _ timeout 1); [lia| |exact Rr].
    rewrite compute_passes_one.
    erewrite traverse_outer;
      [|reflexivity|reflexivity|reflexivity
       |apply traverse_bagged_with_plain; assumption].
    unfold bind. rewrite mapM_map. now rewrite E.
  - apply mapM_Forall2, Forall2_length in E. now symmetry.
Qed.

Lemma map_then_wait_broadcasts_plain_value_witness :
  exists bag,
    map (Fuser "times10") []
        (Some [(Demo.e1, VList [VInt 1; VInt 2]); (Demo.e2, VList [VInt 8; VInt 9])]) []
    = (Ok bag, Some [(Demo.e1, VBagFromDelayed (VList [VInt 1; VInt 2]));
                     (Demo.e2, VList [VInt 8; VInt 9])])
    /\ wait Demo.call bag None Demo.w0
       = (Ok (VList [VInt 10; VInt 20]), Demo.mkWorld 2 ["times10"; "times10"])
    /\ length [VInt 10; VInt 20] = length [VInt 1; VInt 2].
Proof.
  apply (map_then_wait_broadcasts_plain_value Demo.call "times10" Demo.e1 Demo.e2
           [VInt 1; VInt 2] (VList [VInt 8; VInt 9]) None Demo.w0);
    try reflexivity.
  discriminate.
Defined.

(** * Further properties of submit and wait *)

(** X8: [wait] over a list of Futures made by [submit] on plain arguments,
    for functions that leave the world alone (so that the order in which
    the scheduler runs them cannot be seen): [wait] returns one result per
    Future, the result of each Future at the place of that Future. *)
Theorem wait_keeps_order_of_futures {W : Type}
    (call : string -> list value -> kwargs_t -> W -> result value * W)
    (specs : list (string * list value * kwargs_t))
    (r : string * list value * kwargs_t -> value)
    (timeout : option Z) (w : W) :
  forallb (fun s => forallb resolved (snd (fst s))
                    && forallb (fun kv => resolved (snd kv)) (snd s)) specs = true ->
  (forall s w1, s ∈ specs ->
     call (fst (fst s)) (snd (fst s)) (snd s) w1 = (Ok (r s), w1)) ->
  forallb resolved (List.map r specs) = true ->
  wait call
       (VList (List.map (fun s => submit (Fuser (fst (fst s))) (snd (fst s)) (snd s))
                        specs))
       timeout w
  = (Ok (VList (List.map r specs)), w).
Proof.
  intros Hs Hpure Rr.
  apply (wait_of_passes call _ timeout 1); [lia| |exact Rr].
  rewrite compute_passes_one.
  change (traverse call (VList ?l))
    with (bind (mapM (traverse call) l) (fun ys => ret (VList ys))).
  erewrite bind_ok; [reflexivity|]. rewrite mapM_map.
  apply (mapM_pure _ r), Forall_forall. intros [[fn args] kwargs] Hin w1.
  rewrite forallb_forall in Hs.
  pose proof Hin as Hin'. apply list_elem_of_In, Hs in Hin'.
  apply andb_true_iff in Hin' as [Ra Rk]. simpl in Ra, Rk.
  unfold submit. cbn [fst snd].
  rewrite traverse_delayed by assumption. now apply (Hpure (fn, args, kwargs)).
Qed.

Lemma wait_keeps_order_of_futures_witness :
  wait Pure.call
       (VList (List.map (fun s => submit (Fuser (fst (fst s))) (snd (fst s)) (snd s))
                 [("succ", [], [("upstream_states", VDict [(VEdge Demo.e1, VInt 4)])]);
                  ("one_two_three", [], [])]))
       None tt
  = (Ok (VList (List.map
                  (fun s : string * list value * kwargs_t =>
                     if bool_decide (fst (fst s) = "succ") then VInt 5
                     else VList [VInt 1; VInt 2; VInt 3])
                  [("succ", [], [("upstream_states", VDict [(VEdge Demo.e1, VInt 4)])]);
                   ("one_two_three", [], [])])), tt).
Proof.
  apply (wait_keeps_order_of_futures Pure.call
           [("succ", [], [("upstream_states", VDict [(VEdge Demo.e1, VInt 4)])]);
            ("one_two_three", [], [])]
           (fun s => if bool_decide (fst (fst s) = "succ") then VInt 5
                     else VList [VInt 1; VInt 2; VInt 3])
           None tt);
    try reflexivity.
  intros s w1 Hs. destruct w1.
  repeat (apply elem_of_cons in Hs as [->|Hs]; [reflexivity|]).
  now apply elem_of_nil in Hs.
Defined.

(** X9: an exception raised in any of the four passes of [wait], also one
    raised by a computation that only an earlier pass brought to light, is
    raised by [wait], in the world in which it was raised. *)
Theorem wait_raises_from_any_pass {W : Type}
    (call : string -> list value -> kwargs_t -> W -> result value * W)
    (futures : value) (timeout : option Z) (k : nat) (w : W) (e : exn) (w' : W) :
  (k <= 4)%nat ->
  compute_passes call k futures w = (Err e, w') ->
  wait call futures timeout w = (Err e, w').
Proof. intros Hk E. now apply (wait_of_passes_err call futures timeout k). Qed.

Lemma wait_raises_from_any_pass_witness :
  wait Demo2.call (VList [submit (Fuser "lazy_boom") [] []]) None Demo.w0
  = (Err (ValueError "x"), Demo.mkWorld 2 ["lazy_boom"; "boom"]).
Proof.
  apply (wait_raises_from_any_pass Demo2.call _ None 2); [lia | reflexivity].
Defined.

(** X10: a Future given as an argument to [submit] is forced before the
    call it is an argument of: [wait] calls the inner function, hands its
    result to the outer function, and returns what the outer one returns,
    all in a single pass. *)
Theorem submit_forces_arguments_first {W : Type}
    (call : string -> list value -> kwargs_t -> W -> result value * W)
    (fn1 fn2 : string) (args : list value) (kwargs : kwargs_t)
    (timeout : option Z) (w w1 w2 : W) (r1 r2 : value) :
  forallb resolved args = true ->
  forallb (fun kv => resolved (snd kv)) kwargs = true ->
  call fn1 args kwargs w = (Ok r1, w1) ->
  call fn2 [r1] [] w1 = (Ok r2, w2) ->
  resolved r2 = true ->
  compute_passes call 1
    (VList [submit (Fuser fn2) [submit (Fuser fn1) args kwargs] []]) w
  = (Ok (VList [r2]), w2)
  /\ wait call (VList [submit (Fuser fn2) [submit (Fuser fn1) args kwargs] []])
          timeout w
     = (Ok (VList [r2]), w2).
Proof.
  intros Ra Rk E1 E2 R2.
  assert (P : compute_passes call 1
                (VList [submit (Fuser fn2) [submit (Fuser fn1) args kwargs] []]) w
              = (Ok (VList [r2]), w2)).
  { rewrite compute_passes_one, traverse_singleton.
    erewrite bind_ok; [reflexivity|]. unfold submit.
    change (traverse call (VDelayed (Fuser fn2) ?a ?k))
      with (bind (mapM (traverse call) a)
              (fun args' =>
                 bind (mapM (fun kv : string * value =>
                               let '(k0, x) := kv in
                               bind (traverse call x) (fun x' => ret (k0, x'))) k)
                   (fun kwargs' => apply call (Fuser fn2) args' kwargs'))).
    erewrite bind_ok.
    2:{ rewrite mapM_cons. erewrite bind_ok.
        2:{ rewrite traverse_delayed by assumption. exact E1. }
        reflexivity. }
    erewrite bind_ok by reflexivity. exact E2. }
  split; [exact P|].
  apply (wait_of_passes call _ timeout 1); [lia|exact P|]. simpl. now rewrite R2.
Qed.

Lemma submit_forces_arguments_first_witness :
  compute_passes Demo.call 1
    (VList [submit (Fuser "sleep") [submit (Fuser "answer") [] []] []]) Demo.w0
  = (Ok (VList [VNone]), Demo.mkWorld 43 ["answer"; "sleep"])
  /\ wait Demo.call
          (VList [submit (Fuser "sleep") [submit (Fuser "answer") [] []] []])
          None Demo.w0
     = (Ok (VList [VNone]), Demo.mkWorld 43 ["answer"; "sleep"]).
Proof.
  apply (submit_forces_arguments_first Demo.call "answer" "sleep" [] [] None
           Demo.w0 (Demo.mkWorld 1 ["answer"]) _ (VInt 42));
    reflexivity.
Defined.

(** X11: when the function of a Future given as an argument raises, the
    outer function is not called: [wait] raises the exception of the
    inner one, in the world the inner call left.  The other arguments are
    plain values, so that the two calls are the only tasks. *)
Theorem submit_argument_failure_skips_call {W : Type}
    (call : string -> list value -> kwargs_t -> W -> result value * W)
    (fn1 fn2 : string) (args pre post : list value) (kwargs kwargs2 : kwargs_t)
    (timeout : option Z) (w w1 : W) (e : exn) :
  forallb resolved args = true ->
  forallb (fun kv => resolved (snd kv)) kwargs = true ->
  forallb resolved pre = true ->
  forallb resolved post = true ->
  forallb (fun kv => resolved (snd kv)) kwargs2 = true ->
  call fn1 args kwargs w = (Err e, w1) ->
  wait call
       (VList [submit (Fuser fn2)
                 (pre ++ submit (Fuser fn1) args kwargs :: post) kwargs2])
       timeout w
  = (Err e, w1).
Proof.
  intros Ra Rk Rpre Rpost Rk2 E1.
  apply (wait_of_passes_err call _ timeout 1); [lia|].
  rewrite compute_passes_one, traverse_singleton.
  apply bind_err. unfold submit.
  change (traverse call (VDelayed (Fuser fn2) ?a ?k))
    with (bind (mapM (traverse call) a)
            (fun args' =>
               bind (mapM (fun kv : string * value =>
                             let '(k0, x) := kv in
                             bind (traverse call x) (fun x' => ret (k0, x'))) k)
                 (fun kwargs' => apply call (Fuser fn2) args' kwargs'))).
  apply bind_err.
  apply (mapM_app_err _ pre _ post w pre w).
  - apply mapM_id, Forall_forall. intros x Hx w2.
    apply traverse_resolved. rewrite forallb_forall in Rpre.
    apply Rpre, list_elem_of_In, Hx.
  - rewrite traverse_delayed by assumption. exact E1.
Qed.

Lemma submit_argument_failure_skips_call_witness :
  wait Demo.call
       (VList [submit (Fuser "sleep")
                 ([VInt 1] ++ submit (Fuser "boom") [] [] :: [VStr "s"]) []])
       None Demo.w0
  = (Err (ValueError "x"), Demo.mkWorld 1 ["boom"]).
Proof.
  apply (submit_argument_failure_skips_call Demo.call "boom" "sleep" []
           [VInt 1] [VStr "s"] [] [] None Demo.w0);
    reflexivity.
Defined.

(** * Further properties of start and queue *)

Lemma start_scheduler_after {A : Type}
    (body : gmap string value -> result A * gmap string value)
    (config : gmap string value) :
  snd (start body config) !! "scheduler" = config !! "scheduler".
Proof.
  unfold start, config_set, config_exit.
  destruct (body (<["scheduler" := VStr "synchronous"]> config)) as [r cfg'].
  simpl. destruct (config !! "scheduler") as [v|] eqn:Hold.
  - apply lookup_insert_eq.
  - apply lookup_delete_eq.
Qed.

(** X12: scopes of [start] nest.  When a scope is opened inside another,
    leaving the inner one puts the synchronous scheduler of the outer one
    back, whatever the inner body did to the setting and whether it
    returned or raised; leaving the outer one puts back what was set
    before both; and the outcome of the inner body is the outcome of both
    scopes. *)
Theorem start_scopes_nest {A : Type}
    (body : gmap string value -> result A * gmap string value)
    (config : gmap string value) :
  snd (start body (<["scheduler" := VStr "synchronous"]> config)) !! "scheduler"
  = Some (VStr "synchronous")
  /\ snd (start (start body) config) !! "scheduler" = config !! "scheduler"
  /\ fst (start (start body) config)
     = fst (body (<["scheduler" := VStr "synchronous"]>
                    (<["scheduler" := VStr "synchronous"]> config))).
Proof.
  split; [|split].
  - rewrite start_scheduler_after. apply lookup_insert_eq.
  - apply start_scheduler_after.
  - unfold start at 1. unfold config_set. simpl.
    destruct (start body (<["scheduler" := VStr "synchronous"]> config))
      as [r cfg'] eqn:E.
    simpl. apply (f_equal fst) in E. simpl in E. rewrite <- E.
    unfold start, config_set.
    destruct (body (<["scheduler" := VStr "synchronous"]>
                      (<["scheduler" := VStr "synchronous"]> config)))
      as [r' cfg'']. reflexivity.
Qed.

Section QueueFacts.

Lemma put_all_room (xs items : list value) (m : Z) :
  (m <= 0 \/ Z.of_nat (length items + length xs) <= m)%Z ->
  put_all xs (mkQueue m items) = (Ok tt, mkQueue m (items ++ xs)).
Proof.
  revert items. induction xs as [|x xs IH]; intros items Hm; simpl.
  - now rewrite app_nil_r.
  - unfold put_nowait, full, qsize. simpl.
    assert (Hf : ((0 <? m)%Z && (m <=? Z.of_nat (length items))%Z) = false).
    { apply andb_false_iff. destruct Hm as [Hm|Hm].
      - left. apply Z.ltb_ge. exact Hm.
      - right. apply Z.leb_gt. simpl in Hm. lia. }
    rewrite Hf. rewrite IH.
    + now rewrite <- app_assoc.
    + rewrite length_app. simpl in *. lia.
Qed.

Lemma get_n_prefix (xs rest : list value) (m : Z) :
  get_n (length xs) (mkQueue m (xs ++ rest)) = (Ok xs, mkQueue m rest).
Proof.
  induction xs as [|x xs IH]; simpl; [reflexivity|].
  unfold get_nowait. simpl. now rewrite IH.
Qed.

Lemma put_nowait_full (x : value) (items : list value) (m : Z) :
  (0 < m <= Z.of_nat (length items))%Z ->
  put_nowait x (mkQueue m items) = (Err Full, mkQueue m items).
Proof.
  intros [H0 Hm]. unfold put_nowait, full, qsize. simpl.
  assert (Hf : ((0 <? m)%Z && (m <=? Z.of_nat (length items))%Z) = true).
  { apply andb_true_iff. split; [now apply Z.ltb_lt | now apply Z.leb_le]. }
  now rewrite Hf.
Qed.

End QueueFacts.

(** X14: the queue that [queue] returns is empty and first in, first out.
    When [maxsize] is zero or negative (no bound) or the items fit the
    bound, putting the items in one after the other succeeds, and taking
    as many out again gives the same items in the same order and leaves
    the queue as [queue] returned it, from which nothing can be taken. *)
Theorem queue_is_fifo (maxsize : Z) (xs : list value) :
  (maxsize <= 0 \/ Z.of_nat (length xs) <= maxsize)%Z ->
  exists q,
    put_all xs (queue maxsize) = (Ok tt, q)
    /\ qsize q = Z.of_nat (length xs)
    /\ get_n (length xs) q = (Ok xs, queue maxsize)
    /\ get_nowait (queue maxsize) = (Err Empty, queue maxsize).
Proof.
  intros Hm. exists (mkQueue maxsize xs). unfold queue, Queue_new.
  split; [|split; [|split]].
  - now rewrite put_all_room.
  - reflexivity.
  - rewrite <- (app_nil_r xs) at 2. apply get_n_prefix.
  - reflexivity.
Qed.

Lemma queue_is_fifo_witness :
  exists q,
    put_all [VInt 1; VInt 2; VInt 3] (queue 0) = (Ok tt, q)
    /\ qsize q = Z.of_nat (length [VInt 1; VInt 2; VInt 3])
    /\ get_n (length [VInt 1; VInt 2; VInt 3]) q
       = (Ok [VInt 1; VInt 2; VInt 3], queue 0)
    /\ get_nowait (queue 0) = (Err Empty, queue 0).
Proof.
  apply (queue_is_fifo 0 [VInt 1; VInt 2; VInt 3]). left. lia.
Defined.

(** X15: a positive [maxsize] is a bound.  Of more items than [maxsize],
    put in one after the other, the queue takes the first [maxsize] and
    raises [Full] on the next one, keeping what it took. *)
Theorem queue_refuses_beyond_maxsize (maxsize : Z) (xs : list value) :
  (0 < maxsize < Z.of_nat (length xs))%Z ->
  put_all xs (queue maxsize)
  = (Err Full, mkQueue maxsize (take (Z.to_nat maxsize) xs)).
Proof.
  intros [H0 Hlt]. unfold queue, Queue_new.
  rewrite <- (take_drop (Z.to_nat maxsize) xs) at 1.
  assert (Hlen : length (take (Z.to_nat maxsize) xs) = Z.to_nat maxsize).
  { rewrite length_take. lia. }
  destruct (drop (Z.to_nat maxsize) xs) as [|x rest] eqn:Hd.
  - apply (f_equal length) in Hd. rewrite length_drop in Hd. simpl in Hd. lia.
  - generalize dependent (take (Z.to_nat maxsize) xs). intros pre Hlen.
    assert (Hput : forall ys items,
               put_all (ys ++ x :: rest) (mkQueue maxsize items)
               = match put_all ys (mkQueue maxsize items) with
                 | (Ok _, q) => put_all (x :: rest) q
                 | (Err e, q) => (Err e, q)
                 end).
    { induction ys as [|y ys IH]; intros items; simpl; [reflexivity|].
      destruct (put_nowait y (mkQueue maxsize items)) as [[u|e] q'] eqn:Ep;
        [|reflexivity].
      unfold put_nowait in Ep. destruct (full (mkQueue maxsize items));
        inversion Ep; subst. apply IH. }
    rewrite Hput. rewrite put_all_room by (right; simpl; lia).
    simpl. rewrite put_nowait_full by (simpl; lia). reflexivity.
Qed.

Lemma queue_refuses_beyond_maxsize_witness :
  put_all [VInt 1; VInt 2; VInt 3] (queue 2)
  = (Err Full, mkQueue 2 (take (Z.to_nat 2) [VInt 1; VInt 2; VInt 3])).
Proof.
  apply (queue_refuses_beyond_maxsize 2 [VInt 1; VInt 2; VInt 3]).
  simpl. lia.
Defined.

(** * Mapping over what earlier calls left pending *)

(** X16: [map] over the result of a [map].  A mapped Edge whose value is
    the bag that an earlier [map] returned is left in the dictionary as it
    is, and the second function is applied to the results of the first,
    element by element and in order.  For functions that leave the world
    alone, [wait] on the second bag returns the composed results. *)
Theorem map_over_map_composes {W : Type}
    (call : string -> list value -> kwargs_t -> W -> result value * W)
    (fn1 fn2 : string) (e e' : Edge) (xs : list value) (g1 g2 : value -> value)
    (timeout : option Z) (w : W) :
  mapped e = true -> mapped e' = true ->
  forallb resolved xs = true ->
  (forall x w1, x ∈ xs ->
     call fn1 [] [("upstream_states", VDict [(VEdge e, x)])] w1
     = (Ok (g1 x), w1)) ->
  (forall x w1, x ∈ xs ->
     call fn2 [] [("upstream_states", VDict [(VEdge e', g1 x)])] w1
     = (Ok (g2 (g1 x)), w1)) ->
  forallb resolved (List.map (fun x => g2 (g1 x)) xs) = true ->
  exists b1 b2,
    map (Fuser fn1) [] (Some [(e, VList xs)]) []
    = (Ok b1, Some [(e, VBagFromDelayed (VList xs))])
    /\ map (Fuser fn2) [] (Some [(e', b1)]) [] = (Ok b2, Some [(e', b1)])
    /\ wait call b2 timeout w
       = (Ok (VList (List.map (fun x => g2 (g1 x)) xs)), w).
Proof.
  intros Hm Hm' Rx H1 H2 Rr.
  set (b1 := VBagMap (Fuser fn1) []
               [("upstream_states",
                 VBagMap Funpack_dict_to_bag [VBagFromDelayed (VList xs)]
                         [("keys", VTuple [VEdge e])])]).
  exists b1, (VBagMap (Fuser fn2) []
                [("upstream_states",
                  VBagMap Funpack_dict_to_bag [b1] [("keys", VTuple [VEdge e'])])]).
  assert (T1 : traverse call b1 w = (Ok (VList (List.map g1 xs)), w)).
  { unfold b1. erewrite traverse_outer;
      [|reflexivity|reflexivity|reflexivity|apply traverse_bagged_single; exact Rx].
    assert (E : mapM (fun el => call fn1 [] [("upstream_states", el)])
                  (List.map (fun x => VDict [(VEdge e, x)]) xs) w
                = (Ok (List.map g1 xs), w)).
    { rewrite mapM_map. apply (mapM_pure _ g1), Forall_forall.
      intros x Hx w1. now apply H1. }
    erewrite bind_ok by exact E. reflexivity. }
  split; [|split].
  - rewrite map_eq_bag.
    + simpl. now rewrite Hm.
    + apply NoDup_singleton.
    + simpl. now rewrite Hm.
  - rewrite map_eq_bag.
    + simpl. now rewrite andb_false_r.
    + apply NoDup_singleton.
    + simpl. now rewrite Hm'.
  - apply (wait_of_passes call _ timeout 1); [lia| |exact Rr].
    rewrite compute_passes_one.
    erewrite traverse_outer;
      [|reflexivity|reflexivity|reflexivity
       |apply (traverse_bagged_bag call e' b1 (List.map g1 xs) w w);
          [reflexivity | exact T1]].
    assert (E : mapM (fun el => call fn2 [] [("upstream_states", el)])
                  (List.map (fun y => VDict [(VEdge e', y)]) (List.map g1 xs)) w
                = (Ok (List.map (fun x => g2 (g1 x)) xs), w)).
    { rewrite !mapM_map.
      apply (mapM_pure _ (fun x => g2 (g1 x))), Forall_forall.
      intros x Hx w1. now apply H2. }
    erewrite bind_ok by exact E. reflexivity.
Qed.

Lemma map_over_map_composes_witness :
  exists b1 b2,
    map (Fuser "succ") [] (Some [(Demo.e1, VList [VInt 1; VInt 2; VInt 3])]) []
    = (Ok b1, Some [(Demo.e1, VBagFromDelayed (VList [VInt 1; VInt 2; VInt 3]))])
    /\ map (Fuser "double") [] (Some [(Demo2.e4, b1)]) []
       = (Ok b2, Some [(Demo2.e4, b1)])
    /\ wait Pure.call b2 None tt
       = (Ok (VList (List.map
                       (fun x => (fun y => match y with
                                           | VInt n => VInt (2 * n)
                                           | _ => VNone
                                           end)
                                   (match x with
                                    | VInt n => VInt (n + 1)
                                    | _ => VNone
                                    end))
                       [VInt 1; VInt 2; VInt 3])), tt).
Proof.
  apply (map_over_map_composes Pure.call "succ" "double" Demo.e1 Demo2.e4
           [VInt 1; VInt 2; VInt 3]
           (fun x => match x with VInt n => VInt (n + 1) | _ => VNone end)
           (fun y => match y with VInt n => VInt (2 * n) | _ => VNone end)
           None tt);
    try reflexivity;
    intros x w1 Hx; destruct w1;
    repeat (apply elem_of_cons in Hx as [->|Hx]; [reflexivity|]);
    now apply elem_of_nil in Hx.
Defined.

(** X17: [map] over a pending upstream result.  When the value of the
    mapped Edge is a Future made by [submit] whose function returns a
    list, [wait] first calls that function, once, and then [fn] once per
    element of the list it returned, in order; it returns the results of
    [fn]. *)
Theorem map_over_submitted_list {W : Type}
    (call : string -> list value -> kwargs_t -> W -> result value * W)
    (fn f : string) (e : Edge) (args : list value) (kwargs : kwargs_t)
    (xs : list value) (timeout : option Z) (w w1 : W) (rs : list value) (w' : W) :
  mapped e = true ->
  forallb resolved args = true ->
  forallb (fun kv => resolved (snd kv)) kwargs = true ->
  call f args kwargs w = (Ok (VList xs), w1) ->
  mapM (fun x => call fn [] [("upstream_states", VDict [(VEdge e, x)])]) xs w1
  = (Ok rs, w') ->
  forallb resolved rs = true ->
  exists bag,
    map (Fuser fn) [] (Some [(e, submit (Fuser f) args kwargs)]) []
    = (Ok bag, Some [(e, VBagFromDelayed (submit (Fuser f) args kwargs))])
    /\ wait call bag timeout w = (Ok (VList rs), w')
    /\ length rs = length xs.
Proof.
  intros Hm Ra Rk Ef E Rr.
  exists (VBagMap (Fuser fn) []
            [("upstream_states",
              VBagMap Funpack_dict_to_bag
                [VBagFromDelayed (submit (Fuser f) args kwargs)]
                [("keys", VTuple [VEdge e])])]).
  split; [|split].
  - rewrite map_eq_bag.
    + simpl. now rewrite Hm.
    + apply NoDup_singleton.
    + simpl. now rewrite Hm.
  - apply (wait_of_passes call _ timeout 1); [lia| |exact Rr].
    rewrite compute_passes_one.
    erewrite traverse_outer;
      [|reflexivity|reflexivity|reflexivity
       |apply (traverse_bagged_bag call e _ xs w w1);
          [reflexivity
          |apply (traverse_from_submitted call f args kwargs xs w w1);
             assumption]].
    unfold bind. rewrite mapM_map. now rewrite E.
  - apply mapM_Forall2, Forall2_length in E. now symmetry.
Qed.

Lemma map_over_submitted_list_witness :
  exists bag,
    map (Fuser "succ") [] (Some [(Demo.e1, submit (Fuser "one_two_three") [] [])]) []
    = (Ok bag,
       Some [(Demo.e1, VBagFromDelayed (submit (Fuser "one_two_three") [] []))])
    /\ wait Pure.call bag None tt = (Ok (VList [VInt 2; VInt 3; VInt 4]), tt)
    /\ length [VInt 2; VInt 3; VInt 4] = length [VInt 1; VInt 2; VInt 3].
Proof.
  apply (map_over_submitted_list Pure.call "succ" "one_two_three" Demo.e1 [] []
           [VInt 1; VInt 2; VInt 3] None tt tt);
    reflexivity.
Defined.

(** * Broadcasting in general *)

(** X18: for every call of [map] that returns, whatever the dictionary,
    and every Edge in it that is not mapped and whose value is neither a
    bag nor a Delayed: every per-element dictionary that the forcing of
    [upstream_states] produces holds that very value under that Edge. *)
Theorem map_broadcasts_plain_values {W : Type}
    (call : string -> list value -> kwargs_t -> W -> result value * W)
    (fn : func) (args : list value) (d : ups) (kwargs : kwargs_t)
    (bagged : value) (d' : option ups) (w : W) (els : list value) (w' : W)
    (e : Edge) (v el : value) :
  NoDup d.*1 ->
  map fn args (Some d) kwargs
  = (Ok (VBagMap fn args (("upstream_states", bagged) :: kwargs)), d') ->
  traverse call bagged w = (Ok (VList els), w') ->
  (e, v) ∈ d -> mapped e = false -> is_bag v = false -> is_delayed v = false ->
  el ∈ els ->
  dict_get e el = Some v.
Proof.
  intros ND E T Hin Hm Hb Hd Hel. unfold map in E.
  rewrite dict_update_needs_bagging in E by exact ND.
  destruct (bagged_states (List.map bagged_entry d)) as [b0|err] eqn:Eb;
    [|discriminate E].
  inversion E as [[Ebag Ed]]. apply bag_map_inv in Ebag.
  inversion Ebag; subst b0. clear E Ebag Ed.
  assert (Hne : List.map bagged_entry d <> []).
  { intros Hnil. rewrite Hnil in Eb. discriminate Eb. }
  rewrite bagged_states_eq in Eb by exact Hne.
  apply bag_map_inv in Eb. subst bagged.
  rewrite traverse_bagged in T.
  apply bind_inv_ok in T as (ss & w1 & Hss & T).
  destruct (leftover (default 0%nat (zip_len ss)) false ss); [discriminate T|].
  inversion T; subst els w'.
  assert (Hin' : (e, v) ∈ List.map bagged_entry d).
  { apply list_elem_of_In, in_map_iff. exists (e, v).
    split; [|now apply list_elem_of_In]. simpl. now rewrite Hm. }
  apply mapM_Forall2 in Hss.
  destruct (assoc_edge_spread call (List.map bagged_entry d) ss
              ltac:(now rewrite bagged_entry_keys) Hss e v Hin' Hb)
    as (r & Hr & Hall).
  apply list_elem_of_In, in_map_iff in Hel as (i & <- & _).
  rewrite (Hr Hd) in Hall. apply Hall.
Qed.

Lemma map_broadcasts_plain_values_witness :
  dict_get Demo.e2 (VDict [(VEdge Demo.e2, VInt 5); (VEdge Demo.e1, VInt 2)])
  = Some (VInt 5).
Proof.
  apply (map_broadcasts_plain_values Demo.call (Fuser "times10") []
           [(Demo.e2, VInt 5); (Demo.e1, VList [VInt 1; VInt 2; VInt 3])] []
           (VBagMap Funpack_dict_to_bag
              [VInt 5; VBagFromDelayed (VList [VInt 1; VInt 2; VInt 3])]
              [("keys", VTuple [VEdge Demo.e2; VEdge Demo.e1])])
           (Some [(Demo.e2, VInt 5);
                  (Demo.e1, VBagFromDelayed (VList [VInt 1; VInt 2; VInt 3]))])
           Demo.w0
           [VDict [(VEdge Demo.e2, VInt 5); (VEdge Demo.e1, VInt 1)];
            VDict [(VEdge Demo.e2, VInt 5); (VEdge Demo.e1, VInt 2)];
            VDict [(VEdge Demo.e2, VInt 5); (VEdge Demo.e1, VInt 3)]]
           Demo.w0 Demo.e2 (VInt 5));
    try reflexivity.
  - apply NoDup_cons. split.
    + intros H. apply list_elem_of_singleton in H. discriminate H.
    + apply NoDup_singleton.
  - apply elem_of_cons. left. reflexivity.
  - apply elem_of_cons. right. apply elem_of_cons. left. reflexivity.
Defined.
